(** * NYC congestion dashboard: the report metric extractor and the
      file/image helpers of [dashboard.py]

    The development embeds the logic of [src/dashboard.py]:

    - the three [re.search] calls of the weather tab and the [float]
      conversions that fill [rain_metrics] (lines 520-535), with the
      [dict.get] fallbacks of lines 542-548;
    - [safe_read_text] (lines 125-138), over a small file system and the
      two codecs it names;
    - [load_image] under [st.cache_data] and [display_plot]
      (lines 111-155), over a log of the Streamlit elements they emit.

    Text is a list of Unicode code points, file contents are lists of
    [byte], exceptions are values of [exn] carried by [result]. *)

From Stdlib Require Import QArith Qcanon Strings.Byte.
From stdpp Require Import gmap strings list.

Open Scope N_scope.

(** ** Code points and text *)

Abbreviation text := (list N).

(** A Python [str] literal that only holds ASCII characters. *)
Definition lit (s : string) : text :=
  map Ascii.N_of_ascii (String.list_ascii_of_string s).

(** ["\n"] *)
Definition nl : text := [10].

(** ** Exceptions

    The classes that the embedded code can meet. [OSError] is the plain
    class, as Pillow raises it when the data of an image file is cut
    short. *)

Inductive exn : Type :=
  | ValueError
  | UnicodeDecodeError
  | FileNotFoundError
  | IsADirectoryError
  | UnidentifiedImageError
  | OSError.

Inductive result (A : Type) : Type :=
  | Ok (a : A)
  | Raise (e : exn).
Arguments Ok {A} a.
Arguments Raise {A} e.

#[global] Instance result_ret : MRet result := λ A a, Ok a.

#[global] Instance result_bind : MBind result := λ A B k r,
  match r with
  | Ok a => k a
  | Raise e => Raise e
  end.

#[global] Instance result_fmap : FMap result := λ A B f r,
  match r with
  | Ok a => Ok (f a)
  | Raise e => Raise e
  end.

(** ** Values stored in [rain_metrics]

    A Python float obtained from a decimal numeral is the double nearest
    to the numeral's value.  The embedding keeps that value, a canonical
    rational: [VFloat q] stands for the double nearest to [q], so that
    [float("0.041")] and the literal [0.041] are the same [VFloat]. *)

Inductive value : Type :=
  | VFloat (q : Qc)
  | VStr (s : text).

(** The decimal numeral with digits [m] and [k] digits after the point. *)
Definition dec (m : Z) (k : nat) : Qc :=
  Q2Qc (inject_Z m / inject_Z (10 ^ Z.of_nat k)).

Section Extractor.

(** The Unicode character database beyond ASCII: the decimal value of
    a code point of category Nd ([Py_UNICODE_TODECIMAL]) and the
    alphanumeric test ([Py_UNICODE_ISALNUM]). *)
Variable uni_decimal : N → option N.
Variable uni_alnum : N → bool.

Definition to_decimal (c : N) : option N :=
  if c <? 128 then
    if (48 <=? c) && (c <=? 57) then Some (c - 48) else None
  else uni_decimal c.

(** [\d] on [str] patterns: any Unicode decimal digit. *)
Definition is_digit (c : N) : bool :=
  match to_decimal c with Some _ => true | None => false end.

(** [\w] on [str] patterns: alphanumeric, or the underscore. *)
Definition is_word (c : N) : bool :=
  if c <? 128 then
    ((48 <=? c) && (c <=? 57)) || ((65 <=? c) && (c <=? 90))
    || ((97 <=? c) && (c <=? 122)) || (c =? 95)
  else uni_alnum c.

(** [[\d.-]]: a digit, a full stop or a hyphen. *)
Definition is_numch (c : N) : bool :=
  is_digit c || (c =? 46) || (c =? 45).

(** *** The fragment of [re] the three patterns use

    A pattern is a sequence of literal characters and of capturing
    groups that hold one greedy [+] repeat of a character class. *)

Inductive re_node : Type :=
  | Lit (c : N)
  | GroupPlus (cls : N → bool).

Abbreviation regex := (list re_node).

Definition literal (s : string) : regex := Lit <$> lit s.

(** The longest prefix of [s] whose characters are all in [cls]. *)
Fixpoint run_of (cls : N → bool) (s : text) : text :=
  match s with
  | c :: s' => if cls c then c :: run_of cls s' else []
  | [] => []
  end.

(** Greedy repeat followed by the rest of the pattern [k]: the repeat
    first takes all [n] characters of the run and gives them back one
    by one while the rest of the pattern fails. *)
Fixpoint backtrack (k : text → option (list text)) (n : nat)
    (run rest : text) : option (list text) :=
  match n with
  | O => None
  | S n' =>
      match k (drop n run ++ rest) with
      | Some gs => Some (take n run :: gs)
      | None => backtrack k n' run rest
      end
  end.

(** Match of [r] anchored at the start of [s]; the result lists the
    captured groups. *)
Fixpoint match_here (r : regex) (s : text) : option (list text) :=
  match r with
  | [] => Some []
  | Lit c :: r' =>
      match s with
      | x :: s' => if x =? c then match_here r' s' else None
      | [] => None
      end
  | GroupPlus cls :: r' =>
      let run := run_of cls s in
      backtrack (match_here r') (length run) run (drop (length run) s)
  end.

(** [re.search]: the match at the first position where one exists. *)
Fixpoint search (r : regex) (s : text) : option (list text) :=
  match match_here r s with
  | Some gs => Some gs
  | None =>
      match s with
      | _ :: s' => search r s'
      | [] => None
      end
  end.

(** [m.group(1)] *)
Definition group1 (gs : list text) : text := hd [] gs.

(** [r'Correlation coefficient: ([\d.-]+)'] *)
Definition corr_re : regex :=
  literal "Correlation coefficient: " ++ [GroupPlus is_numch].

(** [r'Elasticity: ([\d.-]+)%'] *)
Definition elastic_re : regex :=
  literal "Elasticity: " ++ [GroupPlus is_numch] ++ literal "%".

(** [r'Wettest month: (\w+)'] *)
Definition month_re : regex :=
  literal "Wettest month: " ++ [GroupPlus is_word].

(** *** [float] on a string

    [float] accepts an optional sign, then digits with at most one
    point and at least one digit, and raises [ValueError] otherwise.
    Exponents, [inf], [nan], underscores and surrounding blanks need
    characters that [[\d.-]] does not admit, so they are left out:
    the function is [float] on the strings group 1 can hold. *)

Fixpoint digits_of (s : text) : list N * text :=
  match s with
  | c :: s' =>
      match to_decimal c with
      | Some d => let '(ds, rest) := digits_of s' in (d :: ds, rest)
      | None => ([], s)
      end
  | [] => ([], [])
  end.

Definition digits_value (ds : list N) : Z :=
  foldl (λ acc d, 10 * acc + Z.of_N d)%Z 0%Z ds.

Definition py_float (s : text) : result Qc :=
  let '(neg, body) :=
    match s with
    | c :: s' =>
        if c =? 45 then (true, s')
        else if c =? 43 then (false, s')
        else (false, s)
    | [] => (false, [])
    end in
  let '(ip, rest) := digits_of body in
  let '(fp, rest') :=
    match rest with
    | c :: r => if c =? 46 then digits_of r else ([], rest)
    | [] => ([], [])
    end in
  match ip ++ fp, rest' with
  | _ :: _, [] =>
      let m := digits_value (ip ++ fp) in
      Ok (dec (if neg then - m else m)%Z (length fp))
  | _, _ => Raise ValueError
  end.

(** *** Lines 520-535: filling [rain_metrics] *)

Definition extract_metrics (rain_report : text) :
    result (gmap string value) :=
  let rain_metrics : gmap string value := ∅ in
  match rain_report with
  | [] => Ok rain_metrics
  | _ :: _ =>
      rain_metrics ←
        match search corr_re rain_report with
        | Some corr_match =>
            v ← py_float (group1 corr_match);
            Ok (<["correlation" := VFloat v]> rain_metrics)
        | None => Ok rain_metrics
        end;
      rain_metrics ←
        match search elastic_re rain_report with
        | Some elastic_match =>
            v ← py_float (group1 elastic_match);
            Ok (<["elasticity" := VFloat v]> rain_metrics)
        | None => Ok rain_metrics
        end;
      match search month_re rain_report with
      | Some month_match =>
          Ok (<["wettest_month" := VStr (group1 month_match)]> rain_metrics)
      | None => Ok rain_metrics
      end
  end.

(** Lines 542-548: the values shown, with their hard-coded fallbacks. *)
Definition corr_val (rain_metrics : gmap string value) : value :=
  default (VFloat (dec 41 3)) (rain_metrics !! "correlation").

Definition elastic_val (rain_metrics : gmap string value) : value :=
  default (VFloat (dec (-40) 2)) (rain_metrics !! "elasticity").

Definition month_val (rain_metrics : gmap string value) : value :=
  default (VStr (lit "May 2025")) (rain_metrics !! "wettest_month").

End Extractor.

(** The report of the end-to-end scenario, and two variations. *)
Definition sample_report : text :=
  lit "Correlation coefficient: 0.041" ++ nl ++
  lit "Elasticity: -0.40%" ++ nl ++
  lit "Wettest month: May" ++ nl.

Definition two_correlations : text :=
  lit "Correlation coefficient: 0.5" ++ nl ++
  lit "Correlation coefficient: 0.041" ++ nl.

Definition no_elasticity_report : text :=
  lit "Correlation coefficient: 0.041" ++ nl ++
  lit "Wettest month: May" ++ nl.

(** The same with the correlation sentence ended by a full stop. *)
Definition stopped_correlation_report : text :=
  lit "Correlation coefficient: 0.041." ++ nl ++
  lit "Wettest month: May" ++ nl.

(** A correlation value that is no numeral, before the month line; and
    the month line alone. *)
Definition malformed_correlation_report : text :=
  lit "Correlation coefficient: 1.2.3" ++ nl ++
  lit "Wettest month: May" ++ nl.

Definition month_only_report : text :=
  lit "Wettest month: May" ++ nl.

(** ** Files, codecs and text-mode reads *)

(** [bytes.decode('utf-8')], strict: shortest forms only, no surrogates,
    nothing above U+10FFFF.  [None] stands for [UnicodeDecodeError]. *)
Definition is_cont (b : N) : bool := (128 <=? b) && (b <=? 191).

Fixpoint utf8_decode (bs : list byte) : option text :=
  match bs with
  | [] => Some []
  | c0 :: r0 =>
      let b0 := Byte.to_N c0 in
      if b0 <? 128 then cons b0 <$> utf8_decode r0
      else if (194 <=? b0) && (b0 <=? 223) then
        match r0 with
        | c1 :: r1 =>
            let b1 := Byte.to_N c1 in
            if is_cont b1
            then cons ((b0 - 192) * 64 + (b1 - 128)) <$> utf8_decode r1
            else None
        | _ => None
        end
      else if (224 <=? b0) && (b0 <=? 239) then
        match r0 with
        | c1 :: c2 :: r2 =>
            let b1 := Byte.to_N c1 in
            let b2 := Byte.to_N c2 in
            if is_cont b1 && is_cont b2
               && negb ((b0 =? 224) && (b1 <? 160))
               && negb ((b0 =? 237) && (160 <=? b1))
            then cons ((b0 - 224) * 4096 + (b1 - 128) * 64 + (b2 - 128))
                   <$> utf8_decode r2
            else None
        | _ => None
        end
      else if (240 <=? b0) && (b0 <=? 244) then
        match r0 with
        | c1 :: c2 :: c3 :: r3 =>
            let b1 := Byte.to_N c1 in
            let b2 := Byte.to_N c2 in
            let b3 := Byte.to_N c3 in
            if is_cont b1 && is_cont b2 && is_cont b3
               && negb ((b0 =? 240) && (b1 <? 144))
               && negb ((b0 =? 244) && (144 <=? b1))
            then cons ((b0 - 240) * 262144 + (b1 - 128) * 4096
                       + (b2 - 128) * 64 + (b3 - 128))
                   <$> utf8_decode r3
            else None
        | _ => None
        end
      else None
  end.

(** [bytes.decode('latin-1')]: every byte is its own code point. *)
Definition latin1_decode (bs : list byte) : text := Byte.to_N <$> bs.

(** The byte values of the UTF-8 encoding of a text of scalar values. *)
Definition utf8_encode_char (c : N) : list N :=
  if c <? 128 then [c]
  else if c <? 2048 then [192 + c / 64; 128 + c mod 64]
  else if c <? 65536 then
    [224 + c / 4096; 128 + (c / 64) mod 64; 128 + c mod 64]
  else
    [240 + c / 262144; 128 + (c / 4096) mod 64;
     128 + (c / 64) mod 64; 128 + c mod 64].

Definition utf8_encode (t : text) : list N := t ≫= utf8_encode_char.

(** [open(..., 'r')] leaves [newline] at its default: on reading, the
    line endings ["\r\n"] and ["\r"] come out as ["\n"]. *)
Fixpoint universal_newlines (s : text) : text :=
  match s with
  | [] => []
  | c :: s' =>
      if c =? 13 then
        match s' with
        | d :: s'' =>
            if d =? 10 then 10 :: universal_newlines s''
            else 10 :: universal_newlines s'
        | [] => [10]
        end
      else c :: universal_newlines s'
  end.

Inductive codec : Type := Utf8 | Latin1.

Definition decode (enc : codec) (bs : list byte) : result text :=
  match enc with
  | Utf8 =>
      match utf8_decode bs with
      | Some t => Ok t
      | None => Raise UnicodeDecodeError
      end
  | Latin1 => Ok (latin1_decode bs)
  end.

(** ** The world the script runs in *)

Inductive node : Type :=
  | File (content : list byte)
  | Directory.

(** What the page shows, in the order the script emitted it. *)
Inductive element : Type :=
  | Heading (title : string)
  | Caption (description : string)
  | Picture (img : list byte)
  | Warning (msg : string)
  | Error (msg : string).

(** An entry of [st.cache_data]: the value the call returned and the
    elements it emitted, replayed on every later hit. *)
Record cache_entry : Type := CacheEntry {
  cached_value : option (list byte);
  replay : list element
}.

Record world : Type := World {
  files : gmap string node;
  image_cache : gmap string cache_entry;
  page : list element
}.

Definition M (A : Type) : Type := world → world * result A.

#[global] Instance M_ret : MRet M := λ A a w, (w, Ok a).

#[global] Instance M_bind : MBind M := λ A B k m w,
  match m w with
  | (w', Ok a) => k a w'
  | (w', Raise e) => (w', Raise e)
  end.

#[global] Instance M_fmap : FMap M := λ A B f m w,
  match m w with
  | (w', r) => (w', f <$> r)
  end.

(** [try: m  except ...: h e]; [h] returns [None] for an exception that
    no clause catches. *)
Definition try_except {A : Type} (m : M A) (h : exn → option (M A)) : M A :=
  λ w,
    match m w with
    | (w', Ok a) => (w', Ok a)
    | (w', Raise e) =>
        match h e with
        | Some k => k w'
        | None => (w', Raise e)
        end
    end.

Definition emit (e : element) : M unit :=
  λ w, (World (files w) (image_cache w) (page w ++ [e]), Ok ()).

(** [Path.exists] *)
Definition path_exists (p : string) : M bool :=
  λ w, (w, Ok (bool_decide (is_Some (files w !! p)))).

(** [with open(p, 'r', encoding=enc) as f: return f.read()] *)
Definition open_read (enc : codec) (p : string) : M text :=
  λ w,
    match files w !! p with
    | None => (w, Raise FileNotFoundError)
    | Some Directory => (w, Raise IsADirectoryError)
    | Some (File bs) => (w, universal_newlines <$> decode enc bs)
    end.

Section Dashboard.

(** [str(e)], and Pillow on the bytes of a file: whether [Image.open]
    recognises an image in them, and whether the image data then loads
    in full. *)
Variable exn_str : exn → string.
Variable identifiable : list byte → bool.
Variable loadable : list byte → bool.

(** Lines 125-138. *)
Definition safe_read_text (file_path : string) : M text :=
  try_except (open_read Utf8 file_path) (λ e,
    match e with
    | UnicodeDecodeError =>
        Some (try_except (open_read Latin1 file_path) (λ e,
          Some (emit (Warning ("Could not read file " +:+ file_path
                                 +:+ ": " +:+ exn_str e));;
                mret [])))
    | _ => None
    end).

(** [Image.open]: the file is identified and the image comes back
    unloaded, standing for the bytes it will be read from; the data
    itself is only read when the image is first used. *)
Definition image_open (p : string) : M (list byte) :=
  λ w,
    match files w !! p with
    | None => (w, Raise FileNotFoundError)
    | Some Directory => (w, Raise IsADirectoryError)
    | Some (File bs) =>
        if identifiable bs then (w, Ok bs)
        else (w, Raise UnidentifiedImageError)
    end.

(** [pickle.dumps] of what the body returned: [None] always pickles; an
    image is loaded in full to be written out, and that raises
    [OSError] when the data of the file is cut short. *)
Definition pickles (v : option (list byte)) : bool :=
  match v with
  | Some img => loadable img
  | None => true
  end.

(** [@st.cache_data]: a call whose argument was seen before returns the
    stored value and replays the stored elements without running the
    body; otherwise the body runs and, if it returns, its value is
    pickled and stored under the argument with the elements it emitted.
    The pickling happens in the wrapper, outside the body and its
    [try]: when it fails the exception goes to the caller and nothing
    is stored. *)
Definition cache_data (body : string → M (option (list byte)))
    (key : string) : M (option (list byte)) :=
  λ w,
    match image_cache w !! key with
    | Some en =>
        (World (files w) (image_cache w) (page w ++ replay en),
         Ok (cached_value en))
    | None =>
        match body key w with
        | (w', Ok v) =>
            if pickles v then
              let emitted := drop (length (page w)) (page w') in
              (World (files w')
                 (<[key := CacheEntry v emitted]> (image_cache w'))
                 (page w'),
               Ok v)
            else (w', Raise OSError)
        | (w', Raise e) => (w', Raise e)
        end
    end.

(** Lines 111-122, the body under the decorator. *)
Definition load_image_body (image_path : string) :
    M (option (list byte)) :=
  try_except
    (found ← path_exists image_path;
     if found : bool then Some <$> image_open image_path
     else
       emit (Warning ("Image not found: " +:+ image_path));;
       mret None)
    (λ e,
      Some (emit (Warning ("Error loading image " +:+ image_path
                             +:+ ": " +:+ exn_str e));;
            mret None)).

Definition load_image : string → M (option (list byte)) :=
  cache_data load_image_body.

(** Lines 141-155. *)
Definition display_plot (image_path title description : string) :
    M bool :=
  emit (Heading title);;
  (if decide (description = EmptyString) then mret ()
   else emit (Caption description));;
  img ← load_image image_path;
  match img with
  | Some i => emit (Picture i);; mret true
  | None => emit (Error ("Could not load: " +:+ title));; mret false
  end.

End Dashboard.

(** ** Lines 520-535 statement by statement

    The state the statements run in: the world, and the variables of
    the script that the block reads or assigns. *)
Record script : Type := Script {
  st_world : world;
  st_rain_report : text;
  st_rain_metrics : gmap string value;
  st_corr_match : option (list text);
  st_elastic_match : option (list text);
  st_month_match : option (list text)
}.

Definition P (A : Type) : Type := script → script * result A.

#[global] Instance P_ret : MRet P := λ A a st, (st, Ok a).

#[global] Instance P_bind : MBind P := λ A B k m st,
  match m st with
  | (st', Ok a) => k a st'
  | (st', Raise e) => (st', Raise e)
  end.

(** Reading a variable. *)
Definition get {A : Type} (var : script → A) : P A :=
  λ st, (st, Ok (var st)).

(** The two calls into Python: [re.search(r, s)] and [float(s)] work on
    their arguments alone. *)
Definition re_search (r : list re_node) (s : text) :
    P (option (list text)) :=
  λ st, (st, Ok (search r s)).

Definition float_of (uni_decimal : N → option N) (s : text) : P Qc :=
  λ st, (st, py_float uni_decimal s).

(** The assignments [corr_match = ...], [elastic_match = ...],
    [month_match = ...] and [rain_metrics[k] = v]. *)
Definition set_corr_match (m : option (list text)) : P unit :=
  λ st, (Script (st_world st) (st_rain_report st) (st_rain_metrics st)
           m (st_elastic_match st) (st_month_match st), Ok ()).

Definition set_elastic_match (m : option (list text)) : P unit :=
  λ st, (Script (st_world st) (st_rain_report st) (st_rain_metrics st)
           (st_corr_match st) m (st_month_match st), Ok ()).

Definition set_month_match (m : option (list text)) : P unit :=
  λ st, (Script (st_world st) (st_rain_report st) (st_rain_metrics st)
           (st_corr_match st) (st_elastic_match st) m, Ok ()).

Definition setitem_rain_metrics (k : string) (v : value) : P unit :=
  λ st, (Script (st_world st) (st_rain_report st)
           (<[k := v]> (st_rain_metrics st))
           (st_corr_match st) (st_elastic_match st) (st_month_match st),
         Ok ()).

(** Lines 520-535. *)
Definition metrics_block (uni_decimal : N → option N)
    (uni_alnum : N → bool) : P unit :=
  rain_report ← get st_rain_report;
  match rain_report with
  | [] => mret ()
  | _ :: _ =>
      found ← re_search (corr_re uni_decimal) rain_report;
      set_corr_match found;;
      corr_match ← get st_corr_match;
      match corr_match with
      | Some gs =>
          v ← float_of uni_decimal (group1 gs);
          setitem_rain_metrics "correlation" (VFloat v)
      | None => mret ()
      end;;
      rain_report ← get st_rain_report;
      found ← re_search (elastic_re uni_decimal) rain_report;
      set_elastic_match found;;
      elastic_match ← get st_elastic_match;
      match elastic_match with
      | Some gs =>
          v ← float_of uni_decimal (group1 gs);
          setitem_rain_metrics "elasticity" (VFloat v)
      | None => mret ()
      end;;
      rain_report ← get st_rain_report;
      found ← re_search (month_re uni_alnum) rain_report;
      set_month_match found;;
      month_match ← get st_month_match;
      match month_match with
      | Some gs =>
          setitem_rain_metrics "wettest_month" (VStr (group1 gs))
      | None => mret ()
      end
  end.

(** Line 510 and lines 520-535 as a step of the script: [rain_metrics]
    starts as the empty dictionary, the block runs on the report, and
    the dictionary is what the following lines read. *)
Definition extract_step (uni_decimal : N → option N) (uni_alnum : N → bool)
    (rain_report : text) : M (gmap string value) :=
  λ w,
    let '(st, r) :=
      metrics_block uni_decimal uni_alnum
        (Script w rain_report ∅ None None None) in
    (st_world st, (λ _, st_rain_metrics st) <$> r).

Definition is_warning (e : element) : bool :=
  match e with Warning _ => true | _ => false end.

(** How many [st.warning] elements a stretch of the page holds. *)
Definition count_warnings (es : list element) : nat :=
  length (List.filter is_warning es).

(** What [load_image] can have stored: an image and no element, or
    [None] and the one warning of the branch that returned it. *)
Definition entry_ok (en : cache_entry) : Prop :=
  match cached_value en with
  | Some _ => replay en = []
  | None => ∃ msg, replay en = [Warning msg]
  end.

Definition cache_ok (w : world) : Prop :=
  map_Forall (λ _ en, entry_ok en) (image_cache w).

(** ** Notions the claims are phrased with *)

(** [s.startswith(p)] and [p in s]. *)
Fixpoint starts_with (p s : text) : bool :=
  match p, s with
  | [], _ => true
  | a :: p', b :: s' => (b =? a) && starts_with p' s'
  | _ :: _, [] => false
  end.

Fixpoint contains (p s : text) : bool :=
  starts_with p s ||
  match s with
  | _ :: s' => contains p s'
  | [] => false
  end.

(** "First match wins": [gs] is what [r] captures at position [i] of
    [t], and [r] matches at no position before [i]. *)
Definition first_match_at (r : list re_node) (t : text) (i : nat)
    (gs : list text) : Prop :=
  (i ≤ length t)%nat ∧
  match_here r (drop i t) = Some gs ∧
  ∀ j, (j < i)%nat → match_here r (drop j t) = None.


(** A Unicode database in which nothing beyond ASCII is a digit or a
    letter; the concrete runs below use it. *)
Definition no_decimal : N → option N := λ _, None.
Definition no_alnum : N → bool := λ _, false.

(** ** The report reads of the tabs

    Lines 316-326, 436-444 and 509-518 read a report the same way:
    start from the empty string, and if the path exists read it as
    UTF-8, as latin-1 when that fails to decode. *)
Definition read_report (path : string) : M text :=
  found ← path_exists path;
  if found : bool then
    try_except (open_read Utf8 path) (λ e,
      match e with
      | UnicodeDecodeError => Some (open_read Latin1 path)
      | _ => None
      end)
  else mret [].

(** Lines 509-548 without the plot and the formatting of the numbers:
    the report is read, the metrics are extracted and the three values
    handed to [st.metric] are looked up with their fallbacks. *)
Definition weather_values (uni_decimal : N → option N)
    (uni_alnum : N → bool) (rain_report_path : string) :
    M (value * value * value) :=
  rain_report ← read_report rain_report_path;
  rain_metrics ← extract_step uni_decimal uni_alnum rain_report;
  mret (corr_val rain_metrics, elastic_val rain_metrics,
        month_val rain_metrics).

(** ** The download section of the sidebar (lines 193-217)

    The sidebar is a container of its own; what the section adds to it
    is threaded through the loop. *)
Inductive side_element : Type :=
  | DownloadButton (label : string) (data : list byte)
      (file_name mime : string)
  | ReportWarning (msg : string).

(** The separator ["/"]. *)
Definition slash : Ascii.ascii := Ascii.ascii_of_N 47.

Fixpoint has_slash (p : string) : bool :=
  match p with
  | EmptyString => false
  | String c r => Ascii.eqb c slash || has_slash r
  end.

(** [Path.name]: the last component of a path. *)
Fixpoint path_name (p : string) : string :=
  match p with
  | EmptyString => EmptyString
  | String c r =>
      if has_slash r then path_name r
      else if Ascii.eqb c slash then r else p
  end.

(** [directory / name] *)
Definition path_join (directory name : string) : string :=
  directory +:+ "/" +:+ name.

(** [open(p, "rb")] read to the end. *)
Definition open_rb (fs : gmap string node) (p : string) :
    result (list byte) :=
  match fs !! p with
  | None => Raise FileNotFoundError
  | Some Directory => Raise IsADirectoryError
  | Some (File bs) => Ok bs
  end.

Definition create_download_button (fs : gmap string node)
    (file_path button_text : string) : result (list side_element) :=
  if bool_decide (is_Some (fs !! file_path)) then
    file ← open_rb fs file_path;
    Ok [DownloadButton button_text file (path_name file_path) "text/plain"]
  else Ok [].

(** [for report_path, btn_text in reports: ...] *)
Fixpoint download_loop (fs : gmap string node)
    (reports : list (string * string)) (sidebar : list side_element) :
    list side_element * result unit :=
  match reports with
  | [] => (sidebar, Ok ())
  | (report_path, btn_text) :: rest =>
      if bool_decide (is_Some (fs !! report_path)) then
        match create_download_button fs report_path btn_text with
        | Ok added => download_loop fs rest (sidebar ++ added)
        | Raise e => (sidebar, Raise e)
        end
      else
        download_loop fs rest
          (sidebar ++ [ReportWarning ("Report not found: "
                                        +:+ path_name report_path)])
  end.

(** Lines 207-211, under [VISUALIZATIONS_DIR]. *)
Definition reports (visualizations_dir : string) : list (string * string) :=
  [ (path_join visualizations_dir "congestion_velocity_summary.txt",
     "📄 Velocity Analysis");
    (path_join visualizations_dir "tip_crowding_analysis_summary.txt",
     "📄 Tip Analysis");
    (path_join visualizations_dir "rain_tax_academic_report.txt",
     "📄 Rain Tax Analysis") ].

(** What the loop shows for one report when nothing goes wrong. *)
Definition report_element (fs : gmap string node)
    (report : string * string) : side_element :=
  match fs !! report.1 with
  | Some (File bs) =>
      DownloadButton report.2 bs (path_name report.1) "text/plain"
  | _ => ReportWarning ("Report not found: " +:+ path_name report.1)
  end.

Definition is_directory (fs : gmap string node) (p : string) : Prop :=
  fs !! p = Some Directory.

(** ** Notions the further properties are phrased with *)

(** A Unicode scalar value: at most U+10FFFF and no surrogate. *)
Definition scalar (c : N) : Prop :=
  c < 1114112 ∧ ¬ (55296 ≤ c ≤ 57343).

(** A numeral [float] accepts, told by counting: at most one full stop,
    no hyphen after the first character, at least one digit. *)
Definition count_of (a : N) (s : text) : nat :=
  length (List.filter (λ c, c =? a) s).

Definition well_formed_number (uni_decimal : N → option N) (s : text) :
    Prop :=
  (count_of 46 s ≤ 1)%nat
  ∧ (45 ∉ tail s)
  ∧ Exists (λ c, is_digit uni_decimal c = true) s.

(** The integer digits, the fraction digits and the unread rest that
    [py_float] finds after the sign. *)
Definition number_parts (uni_decimal : N → option N) (body : text) :
    list N * list N * text :=
  let '(ip, rest) := digits_of uni_decimal body in
  let '(fp, rest') :=
    match rest with
    | c :: r => if c =? 46 then digits_of uni_decimal r else ([], rest)
    | [] => ([], [])
    end in
  (ip, fp, rest').

(** Whether [display_plot] has an image to show: the cached one if the
    path was loaded before, the file if it is a recognised image whose
    data loads. *)
Definition image_available (identifiable loadable : list byte → bool)
    (w : world) (p : string) : bool :=
  match image_cache w !! p with
  | Some en => bool_decide (is_Some (cached_value en))
  | None =>
      match files w !! p with
      | Some (File bs) => identifiable bs && loadable bs
      | _ => false
      end
  end.

(** Whether loading fails outside the [try] of [load_image]: nothing is
    cached for the path and the file is a recognised image whose data
    does not load. *)
Definition load_fails (identifiable loadable : list byte → bool)
    (w : world) (p : string) : bool :=
  match image_cache w !! p with
  | Some _ => false
  | None =>
      match files w !! p with
      | Some (File bs) => identifiable bs && negb (loadable bs)
      | _ => false
      end
  end.

(** What a process does to the world, artifacts being files that never
    change while it runs: it calls [display_plot], it adds other
    elements to the page, it starts a new render pass with an empty
    page and the cache it has, and it has its cache cleared. *)
Inductive action : Type :=
  | ShowPlot (image_path title description : string)
  | AddElement (e : element)
  | Rerun
  | ClearCache.

Definition perform (exn_str : exn → string)
    (identifiable loadable : list byte → bool) (a : action) (w : world) :
    world :=
  match a with
  | ShowPlot image_path title description =>
      (display_plot exn_str identifiable loadable image_path title
         description w).1
  | AddElement e => (emit e w).1
  | Rerun => World (files w) (image_cache w) []
  | ClearCache => World (files w) ∅ (page w)
  end.

(** The world after a process that started with the files [fs] and an
    empty cache has performed [steps]. *)
Definition run (exn_str : exn → string)
    (identifiable loadable : list byte → bool) (fs : gmap string node)
    (steps : list action) : world :=
  foldl (λ w a, perform exn_str identifiable loadable a w)
    (World fs ∅ []) steps.

(** For a path with no file, the cache holds nothing or the outcome of
    the not-found branch. *)
Definition cache_fresh (w : world) : Prop :=
  ∀ p en,
    image_cache w !! p = Some en → files w !! p = None →
    en = CacheEntry None [Warning ("Image not found: " +:+ p)].

(** * The model on small inputs *)

Example float_plain : py_float no_decimal (lit "0.041") = Ok (dec 41 3).
Proof. vm_compute. reflexivity. Qed.

Example float_negative : py_float no_decimal (lit "-0.40") = Ok (dec (-4) 1).
Proof.
  change (py_float no_decimal (lit "-0.40")) with (Ok (dec (-40) 2)).
  f_equal. apply Qc_is_canon. reflexivity.
Qed.

Example float_no_fraction : py_float no_decimal (lit "12.") = Ok (dec 12 0).
Proof. vm_compute. reflexivity. Qed.

Example float_no_integer : py_float no_decimal (lit ".5") = Ok (dec 5 1).
Proof. vm_compute. reflexivity. Qed.

Example float_hyphen : py_float no_decimal (lit "-") = Raise ValueError.
Proof. reflexivity. Qed.

Example float_two_points :
  py_float no_decimal (lit "1.2.3") = Raise ValueError.
Proof. reflexivity. Qed.

Example float_range : py_float no_decimal (lit "1-2") = Raise ValueError.
Proof. reflexivity. Qed.

(** Arabic-Indic digits are digits for [\d] and for [float] alike. *)
Example float_arabic_indic :
  let arabic c :=
    if (1632 <=? c) && (c <=? 1641) then Some (c - 1632) else None in
  is_digit arabic 1633 = true
  ∧ py_float arabic [1633; 1634] = Ok (dec 12 0).
Proof. split; vm_compute; reflexivity. Qed.

(** The elasticity pattern needs the percent sign after the number. *)
Example elastic_needs_percent :
  search (elastic_re no_decimal) (lit "Elasticity: -0.40 per mm") = None
  ∧ search (elastic_re no_decimal) (lit "Elasticity: -0.40% per mm")
    = Some [lit "-0.40"].
Proof. split; vm_compute; reflexivity. Qed.

Example month_stops_at_blank :
  search (month_re no_alnum) (lit "Wettest month: May 2025")
  = Some [lit "May"].
Proof. vm_compute. reflexivity. Qed.

Example utf8_four_bytes : utf8_decode [xf0; x9f; x9a; x95] = Some [128661].
Proof. reflexivity. Qed.

Example utf8_overlong : utf8_decode [xc0; x80] = None.
Proof. reflexivity. Qed.

Example utf8_surrogate : utf8_decode [xed; xa0; x80] = None.
Proof. reflexivity. Qed.

Example utf8_truncated : utf8_decode [xe2; x82] = None.
Proof. reflexivity. Qed.

Example utf8_too_large : utf8_decode [xf4; x90; x80; x80] = None.
Proof. reflexivity. Qed.

Example newlines_translated :
  universal_newlines (lit "a" ++ [13; 10] ++ lit "b" ++ [13] ++ lit "c")
  = lit "a" ++ nl ++ lit "b" ++ nl ++ lit "c".
Proof. reflexivity. Qed.

(** * How [search] scans a text *)

Lemma search_unfold r s :
  search r s =
  match match_here r s with
  | Some gs => Some gs
  | None => match s with _ :: s' => search r s' | [] => None end
  end.
Proof. by destruct s. Qed.

Lemma search_skip r t n :
  (∀ j, (j < n)%nat → match_here r (drop j t) = None) →
  search r t = search r (drop n t).
Proof.
  revert t. induction n as [|n IH]; intros t Hnone; [done|].
  pose proof (Hnone 0%nat ltac:(lia)) as H0. rewrite drop_0 in H0.
  rewrite search_unfold, H0.
  destruct t as [|c t].
  - by rewrite drop_nil, search_unfold, H0.
  - rewrite skipn_cons. apply IH. intros j Hj. apply (Hnone (S j)). lia.
Qed.

Lemma search_first_match r t gs :
  search r t = Some gs ↔ ∃ i, first_match_at r t i gs.
Proof.
  split.
  - revert gs. induction t as [|c t IH]; intros gs; rewrite search_unfold.
    + destruct (match_here r []) eqn:E; [|done].
      intros [= <-]. exists 0%nat. repeat split; [done|done|lia].
    + destruct (match_here r (c :: t)) eqn:E.
      * intros [= <-]. exists 0%nat. repeat split; [simpl; lia|done|lia].
      * intros (i & Hi & Hm & Hbefore)%IH. exists (S i).
        repeat split; [simpl; lia|done|].
        intros [|j] Hj; [done|]. apply Hbefore. lia.
  - intros (i & _ & Hm & Hbefore).
    rewrite (search_skip r t i Hbefore), search_unfold. by rewrite Hm.
Qed.

Lemma search_None r t :
  search r t = None ↔
  ∀ i, (i ≤ length t)%nat → match_here r (drop i t) = None.
Proof.
  split.
  - induction t as [|c t IH]; rewrite search_unfold;
      destruct (match_here r _) eqn:E; try done; intros Hs [|i] Hi;
      rewrite ?drop_0, ?drop_nil, ?skipn_cons; try done.
    apply IH; [done|]. simpl in Hi. lia.
  - intros Hnone. destruct (search r t) as [gs|] eqn:E; [|done].
    apply search_first_match in E as (i & Hi & Hm & _).
    rewrite Hnone in Hm; done.
Qed.

Lemma match_here_literal p r s gs :
  match_here ((Lit <$> p) ++ r) s = Some gs → starts_with p s = true.
Proof.
  revert s. induction p as [|a p IH]; intros s; [done|].
  destruct s as [|b s]; simpl; [done|].
  destruct (b =? a); [apply IH|done].
Qed.

Lemma search_needs_label p r t :
  contains p t = false → search ((Lit <$> p) ++ r) t = None.
Proof.
  induction t as [|c t IH]; rewrite search_unfold; simpl.
  - intros [H _]%orb_false_elim.
    destruct (match_here _ []) eqn:E; [|done].
    apply match_here_literal in E. congruence.
  - intros [H Ht]%orb_false_elim.
    destruct (match_here _ (c :: t)) eqn:E; [|by apply IH].
    apply match_here_literal in E. simpl in E. congruence.
Qed.

(** * The extractor on concrete reports *)

Section ExtractorFacts.

Variable uni_decimal : N → option N.
Variable uni_alnum : N → bool.

Abbreviation extract := (extract_metrics uni_decimal uni_alnum).
Abbreviation corr := (corr_re uni_decimal).
Abbreviation elastic := (elastic_re uni_decimal).
Abbreviation month := (month_re uni_alnum).
Abbreviation float := (py_float uni_decimal).

(** C2. The report ["Correlation coefficient: 0.041\nElasticity:
    -0.40%\nWettest month: May\n"] yields exactly the map
    [{"correlation": 0.041, "elasticity": -0.40, "wettest_month":
    "May"}]. *)
Theorem extract_sample_report :
  extract sample_report =
  Ok {[ "correlation" := VFloat (dec 41 3);
        "elasticity" := VFloat (dec (-40) 2);
        "wettest_month" := VStr (lit "May") ]}.
Proof. vm_compute. reflexivity. Qed.

(** The spec's example of a malformed value: ["N/A"] starts with a
    character outside [[\d.-]], the pattern finds nothing and the key
    is left out. *)
Lemma extract_not_available :
  extract (lit "Correlation coefficient: N/A") = Ok ∅.
Proof. vm_compute. reflexivity. Qed.

(** C1, on the code. A report whose sentence ends in a full stop,
    ["Correlation coefficient: 0.041."]: the pattern matches, group 1
    is ["0.041."], [float] raises [ValueError] and nothing catches it,
    where the claim has the field omitted.  *)
Theorem extract_trailing_stop_raises :
  extract (lit "Correlation coefficient: 0.041.") = Raise ValueError.
Proof. vm_compute. reflexivity. Qed.

(** C3, on the code. The report ["Correlation coefficient:
    0.041.\nWettest month: May\n"] has no ["Elasticity:"] line and the
    elasticity pattern finds nothing in it. The claim has a result map
    without the key, no error, and [-0.40] shown. The code has no
    result map: the correlation pattern captures ["0.041."], [float]
    raises [ValueError] at line 525, before the elasticity is looked
    for, and the step of the script ends there in any world, so that
    line 545 and its default are never reached. *)
Theorem missing_elasticity_aborts :
  contains (lit "Elasticity:") stopped_correlation_report = false
  ∧ search elastic stopped_correlation_report = None
  ∧ search corr stopped_correlation_report = Some [lit "0.041."]
  ∧ float (lit "0.041.") = Raise ValueError
  ∧ extract stopped_correlation_report = Raise ValueError
  ∧ ∀ w, extract_step uni_decimal uni_alnum stopped_correlation_report w
         = (w, Raise ValueError).
Proof. repeat split; vm_compute; reflexivity. Qed.

(** C5, on the code. In the report ["Correlation coefficient:
    1.2.3\nWettest month: May\n"] the month pattern matches and captures
    ["May"], and from the month line alone the extraction returns
    [{"wettest_month": "May"}]. With the correlation line before it the
    month is not found: the correlation pattern captures ["1.2.3"],
    [float] raises [ValueError] at line 525 and line 533 is never
    reached. Whether the month is found depends on the correlation
    line. *)
Theorem month_depends_on_correlation :
  search month malformed_correlation_report = Some [lit "May"]
  ∧ search corr malformed_correlation_report = Some [lit "1.2.3"]
  ∧ float (lit "1.2.3") = Raise ValueError
  ∧ extract malformed_correlation_report = Raise ValueError
  ∧ extract month_only_report
    = Ok {[ "wettest_month" := VStr (lit "May") ]}.
Proof. repeat split; vm_compute; reflexivity. Qed.

(** The guard [if rain_report:] changes nothing: on the empty text no
    pattern matches. *)
Lemma extract_metrics_eq t :
  extract t =
    (m1 ← match search corr t with
          | Some gs => v ← float (group1 gs); Ok (<["correlation" := VFloat v]> ∅)
          | None => Ok ∅
          end;
     m2 ← match search elastic t with
          | Some gs => v ← float (group1 gs); Ok (<["elasticity" := VFloat v]> m1)
          | None => Ok m1
          end;
     match search month t with
     | Some gs => Ok (<["wettest_month" := VStr (group1 gs)]> m2)
     | None => Ok m2
     end).
Proof. destruct t; [vm_compute|]; reflexivity. Qed.

Ltac extract_cases t :=
  rewrite (extract_metrics_eq t) in *;
  destruct (search corr t) as [gc|] eqn:Hc;
    [destruct (float (group1 gc)) as [qc|ec] eqn:Hcf|];
  (destruct (search elastic t) as [ge|] eqn:He;
    [destruct (float (group1 ge)) as [qe|ee] eqn:Hef|]);
  destruct (search month t) as [gm|] eqn:Hm;
  simpl in *.

(** X20. Each pattern is searched at every position of the text and the
    leftmost match is taken; when the extraction returns, a key of the
    result is bound exactly when its own pattern matches, to the value
    captured there, whatever the other two patterns find; and the
    extraction returns whenever the captured numbers are well
    formed. *)
Theorem search_leftmost_independent t :
  (∀ r gs, search r t = Some gs ↔ ∃ i, first_match_at r t i gs)
  ∧ (∀ r, search r t = None ↔
          ∀ i, (i ≤ length t)%nat → match_here r (drop i t) = None)
  ∧ (∀ m, extract t = Ok m →
       (∀ v, m !! "correlation" = Some v ↔
             ∃ gs q, search corr t = Some gs
                     ∧ float (group1 gs) = Ok q ∧ v = VFloat q)
       ∧ (∀ v, m !! "elasticity" = Some v ↔
             ∃ gs q, search elastic t = Some gs
                     ∧ float (group1 gs) = Ok q ∧ v = VFloat q)
       ∧ (∀ v, m !! "wettest_month" = Some v ↔
             ∃ gs, search month t = Some gs ∧ v = VStr (group1 gs)))
  ∧ ((∀ gs, search corr t = Some gs → ∃ q, float (group1 gs) = Ok q) →
     (∀ gs, search elastic t = Some gs → ∃ q, float (group1 gs) = Ok q) →
     ∃ m, extract t = Ok m).
Proof.
  split; [intros r gs; apply search_first_match|].
  split; [intros r; apply search_None|]. split.
  - intros m Hm'. extract_cases t; try done;
      assert (m = m) as _ by done; simplify_eq;
      (split; [|split]); intros v;
      rewrite ?lookup_insert_eq, ?lookup_insert_ne, ?lookup_insert_eq,
        ?lookup_insert_ne, ?lookup_insert_eq, ?lookup_empty by done;
      (split; [intros ?; simplify_eq; eauto 10
              |intros H;
               repeat match type of H with
                      | ∃ _, _ => destruct H as [? H]
                      | _ ∧ _ => destruct H as [? H]
                      end; simplify_eq; congruence]).
  - intros Hc' He'. extract_cases t; eauto; exfalso;
      first [ destruct (Hc' _ eq_refl); congruence
            | destruct (He' _ eq_refl); congruence ].
Qed.

(** X21. When the extraction returns, a key is bound in the result only
    if its own pattern matched. On a report without ["Elasticity:"] the
    elasticity pattern finds nothing; if the extraction returns, the
    map has no ["elasticity"] key and the display falls back on
    [-0.40]; if it raises, the exception comes from the correlation
    value. *)
Theorem missing_elasticity_uses_default t :
  (∀ m k, extract t = Ok m → is_Some (m !! k) →
      k = "correlation" ∧ is_Some (search corr t)
      ∨ k = "elasticity" ∧ is_Some (search elastic t)
      ∨ k = "wettest_month" ∧ is_Some (search month t))
  ∧ (contains (lit "Elasticity:") t = false →
      search elastic t = None
      ∧ (∀ m, extract t = Ok m →
           m !! "elasticity" = None
           ∧ elastic_val m = VFloat (dec (-40) 2))
      ∧ (∀ e, extract t = Raise e →
           ∃ gs, search corr t = Some gs ∧ float (group1 gs) = Raise e)).
Proof.
  split.
  - intros m k Hm' [v Hv]. extract_cases t; try done; simplify_eq;
      repeat (rewrite lookup_insert in Hv; case_decide; simplify_eq;
              try by eauto 6);
      by rewrite lookup_empty in Hv.
  - intros Hno.
    assert (search elastic t = None) as He'.
    { apply (search_needs_label (lit "Elasticity:")
               (literal " " ++ [GroupPlus (is_numch uni_decimal)]
                ++ literal "%") t Hno). }
    split; [done|]. unfold elastic_val.
    split; [intros m Hm'|intros e Hm'];
      extract_cases t; simplify_eq; eauto;
      by rewrite ?lookup_insert_ne, ?lookup_insert_ne, ?lookup_empty.
Qed.


End ExtractorFacts.

(** * Codecs *)

Ltac n_bools :=
  repeat match goal with
  | H : _ && _ = true |- _ => apply andb_true_iff in H as [? ?]
  | H : negb _ = true |- _ => apply negb_true_iff in H
  | H : _ && _ = false |- _ => apply andb_false_iff in H as [?|?]
  | H : (_ <? _) = true |- _ => apply N.ltb_lt in H
  | H : (_ <? _) = false |- _ => apply N.ltb_ge in H
  | H : (_ <=? _) = true |- _ => apply N.leb_le in H
  | H : (_ <=? _) = false |- _ => apply N.leb_gt in H
  | H : (_ =? _) = true |- _ => apply N.eqb_eq in H
  | H : (_ =? _) = false |- _ => apply N.eqb_neq in H
  end.

Ltac divmod_lia := Z.to_euclidean_division_equations; lia.

Lemma utf8_encode_cons c t :
  utf8_encode (c :: t) = utf8_encode_char c ++ utf8_encode t.
Proof. reflexivity. Qed.

Lemma encode_1 b : b < 128 → utf8_encode_char b = [b].
Proof. intros H. unfold utf8_encode_char. by rewrite (proj2 (N.ltb_lt _ _) H). Qed.

Lemma encode_2 b0 b1 :
  194 ≤ b0 ≤ 223 → 128 ≤ b1 ≤ 191 →
  utf8_encode_char ((b0 - 192) * 64 + (b1 - 128)) = [b0; b1].
Proof.
  intros H0 H1. unfold utf8_encode_char.
  destruct (N.ltb_spec ((b0 - 192) * 64 + (b1 - 128)) 128); [lia|].
  destruct (N.ltb_spec ((b0 - 192) * 64 + (b1 - 128)) 2048); [|lia].
  f_equal; [|f_equal]; zify; divmod_lia.
Qed.

Lemma encode_3 b0 b1 b2 :
  224 ≤ b0 ≤ 239 → 128 ≤ b1 ≤ 191 → 128 ≤ b2 ≤ 191 →
  ¬ (b0 = 224 ∧ b1 < 160) →
  utf8_encode_char ((b0 - 224) * 4096 + (b1 - 128) * 64 + (b2 - 128))
  = [b0; b1; b2].
Proof.
  intros H0 H1 H2 H3. unfold utf8_encode_char.
  set (x := (b0 - 224) * 4096 + (b1 - 128) * 64 + (b2 - 128)).
  assert (2048 ≤ x < 65536) by (unfold x; lia).
  destruct (N.ltb_spec x 128); [lia|].
  destruct (N.ltb_spec x 2048); [lia|].
  destruct (N.ltb_spec x 65536); [|lia].
  unfold x. repeat f_equal; zify; divmod_lia.
Qed.

Lemma encode_4 b0 b1 b2 b3 :
  240 ≤ b0 ≤ 244 → 128 ≤ b1 ≤ 191 → 128 ≤ b2 ≤ 191 → 128 ≤ b3 ≤ 191 →
  ¬ (b0 = 240 ∧ b1 < 144) →
  utf8_encode_char ((b0 - 240) * 262144 + (b1 - 128) * 4096
                    + (b2 - 128) * 64 + (b3 - 128))
  = [b0; b1; b2; b3].
Proof.
  intros H0 H1 H2 H3 H4. unfold utf8_encode_char.
  set (x := (b0 - 240) * 262144 + (b1 - 128) * 4096
            + (b2 - 128) * 64 + (b3 - 128)).
  assert (65536 ≤ x) by (unfold x; lia).
  destruct (N.ltb_spec x 128); [lia|].
  destruct (N.ltb_spec x 2048); [lia|].
  destruct (N.ltb_spec x 65536); [lia|].
  unfold x. repeat f_equal; zify; divmod_lia.
Qed.

Lemma byte_13 c : Byte.to_N c = 13 → c = x0d.
Proof.
  intros H. pose proof (Byte.of_to_N c) as Hc. rewrite H in Hc.
  by injection Hc.
Qed.

(** What a successful strict decode tells: the text encodes back to the
    bytes it came from, and a carriage return in it is a byte [0x0D]. *)
Lemma utf8_decode_sound bs t :
  utf8_decode bs = Some t →
  utf8_encode t = Byte.to_N <$> bs ∧ (13 ∈ t → x0d ∈ bs).
Proof.
  remember (length bs) as n eqn:Hn. revert bs t Hn.
  induction n as [n IH] using lt_wf_ind. intros bs t Hn Hd.
  destruct bs as [|c0 r0]; [simplify_eq/=; split; [done|set_solver]|].
  cbn [utf8_decode] in Hd. unfold is_cont in Hd.
  repeat case_match; try discriminate; subst;
    apply fmap_Some in Hd as (t' & Hd & ->);
    match type of Hd with
    | utf8_decode ?r = _ =>
        destruct (IH (length r) ltac:(simpl; lia) r t' eq_refl Hd)
          as [Henc Hcr]
    end;
    n_bools; try (exfalso; lia);
    (split;
     [ rewrite utf8_encode_cons, Henc;
       first [ rewrite encode_1 by lia | rewrite encode_2 by lia
             | rewrite encode_3 by lia | rewrite encode_4 by lia ];
       reflexivity
     | intros [Hx|Hin]%elem_of_cons;
       [ first [ symmetry in Hx; apply byte_13 in Hx; rewrite Hx; by left
               | lia ]
       | rewrite !elem_of_cons; auto 10 ] ]).
Qed.

Lemma universal_newlines_id t : 13 ∉ t → universal_newlines t = t.
Proof.
  induction t as [|c t IH]; [done|]. intros Hc%not_elem_of_cons.
  destruct Hc as [Hc Ht]. simpl.
  destruct (N.eqb_spec c 13); [congruence|]. by rewrite IH.
Qed.

Lemma latin1_no_cr bs : x0d ∉ bs → 13 ∉ latin1_decode bs.
Proof.
  intros Hno (c & Hc & Hin)%list_elem_of_fmap.
  symmetry in Hc. apply byte_13 in Hc. by subst.
Qed.

Lemma latin1_decode_inj bs bs' :
  latin1_decode bs' = latin1_decode bs → bs' = bs.
Proof.
  revert bs. induction bs' as [|c bs' IH]; intros [|d bs]; try done.
  intros [= Hc Hbs]. f_equal; [|by apply IH].
  pose proof (Byte.of_to_N c) as H1. pose proof (Byte.of_to_N d) as H2.
  congruence.
Qed.

(** * Reading report files *)

Section FileFacts.

Variable exn_str : exn → string.

(** On a regular file the first read succeeds, or fails on the bytes
    and the latin-1 read succeeds; the page is not touched. *)
Lemma safe_read_text_regular w p bs :
  files w !! p = Some (File bs) →
  safe_read_text exn_str p w
  = (w, Ok (universal_newlines
              (default (latin1_decode bs) (utf8_decode bs)))).
Proof.
  intros Hf. unfold safe_read_text, try_except, open_read.
  rewrite Hf. simpl.
  destruct (utf8_decode bs); simpl; by rewrite ?Hf.
Qed.

(** C9. On a path with no file the open error propagates: the handler
    only catches [UnicodeDecodeError], so there is no warning and no
    empty string. *)
Theorem safe_read_text_missing w p :
  files w !! p = None →
  safe_read_text exn_str p w = (w, Raise FileNotFoundError).
Proof.
  intros Hf. unfold safe_read_text, try_except, open_read.
  by rewrite Hf.
Qed.

(** C10. On an existing regular file the latin-1 read succeeds
    whatever the bytes and whatever handler guards it, so
    [safe_read_text] returns the decoded content (UTF-8 when the bytes
    are valid, latin-1 otherwise) and leaves the page as it was: the
    warning of the give-up branch is never emitted. *)
Theorem safe_read_text_total w p bs :
  files w !! p = Some (File bs) →
  (∀ h, try_except (open_read Latin1 p) h w
        = (w, Ok (universal_newlines (latin1_decode bs))))
  ∧ safe_read_text exn_str p w
    = (w, Ok (universal_newlines
                (default (latin1_decode bs) (utf8_decode bs)))).
Proof.
  intros Hf. split.
  - intros h. unfold try_except, open_read. by rewrite Hf.
  - by apply safe_read_text_regular.
Qed.

(** C6, as the code has it. Valid UTF-8 bytes are returned as the text
    they encode with ["\r\n"] and ["\r"] turned into ["\n"], hence
    unchanged when no byte is a carriage return; other bytes are
    returned as their latin-1 text, one code point per byte, under the
    same translation.  Neither case raises or warns. *)
Theorem safe_read_text_decodes w p bs :
  files w !! p = Some (File bs) →
  match utf8_decode bs with
  | Some t =>
      safe_read_text exn_str p w = (w, Ok (universal_newlines t))
      ∧ utf8_encode t = Byte.to_N <$> bs
      ∧ (x0d ∉ bs → safe_read_text exn_str p w = (w, Ok t))
  | None =>
      safe_read_text exn_str p w
      = (w, Ok (universal_newlines (latin1_decode bs)))
      ∧ length (latin1_decode bs) = length bs
      ∧ (∀ bs', latin1_decode bs' = latin1_decode bs → bs' = bs)
      ∧ (x0d ∉ bs →
         safe_read_text exn_str p w = (w, Ok (latin1_decode bs)))
  end.
Proof.
  intros Hf. rewrite (safe_read_text_regular w p bs Hf).
  destruct (utf8_decode bs) as [t|] eqn:Hd; simpl.
  - destruct (utf8_decode_sound bs t Hd) as [Henc Hcr].
    repeat split; [done|]. intros Hno.
    rewrite universal_newlines_id; [done|]. intros Hin. by apply Hno, Hcr.
  - repeat split.
    + unfold latin1_decode. by rewrite length_fmap.
    + apply latin1_decode_inj.
    + intros Hno. by rewrite universal_newlines_id by by apply latin1_no_cr.
Qed.

End FileFacts.

(** C6, on the claim as stated. The one byte [0x0D] is valid UTF-8 for
    the text ["\r"], and [safe_read_text] returns ["\n"], whose
    encoding is the byte [0x0A]. *)
Lemma safe_read_text_carriage_return :
  let w := World {[ "report.txt" := File [x0d] ]} ∅ [] in
  utf8_decode [x0d] = Some [13]
  ∧ utf8_encode [13] = Byte.to_N <$> [x0d]
  ∧ safe_read_text (λ _, "error") "report.txt" w = (w, Ok [10])
  ∧ utf8_encode [10] ≠ Byte.to_N <$> [x0d].
Proof. repeat split; try done. Qed.

(** C9 on a world without files. *)
Lemma safe_read_text_missing_witness :
  let w := World ∅ ∅ [] in
  files w !! "report.txt" = None
  ∧ safe_read_text (λ _, "error") "report.txt" w
    = (w, Raise FileNotFoundError).
Proof.
  split; [reflexivity|].
  apply (safe_read_text_missing (λ _, "error") (World ∅ ∅ []) "report.txt").
  reflexivity.
Defined.

(** * Showing a plot *)

Section DisplayFacts.

Variable exn_str : exn → string.
Variable identifiable : list byte → bool.
Variable loadable : list byte → bool.

Abbreviation load := (load_image exn_str identifiable loadable).
Abbreviation display := (display_plot exn_str identifiable loadable).
Abbreviation do := (perform exn_str identifiable loadable).

Lemma load_image_hit w p en :
  image_cache w !! p = Some en →
  load p w
  = (World (files w) (image_cache w) (page w ++ replay en),
     Ok (cached_value en)).
Proof. intros Hc. unfold load_image, cache_data. by rewrite Hc. Qed.

Lemma load_image_miss_absent w p :
  image_cache w !! p = None →
  files w !! p = None →
  let msg := Warning ("Image not found: " +:+ p) in
  load p w
  = (World (files w) (<[p := CacheEntry None [msg]]> (image_cache w))
       (page w ++ [msg]),
     Ok None).
Proof.
  intros Hc Hf. unfold load_image, cache_data. rewrite Hc.
  unfold load_image_body, try_except, mbind, M_bind, path_exists.
  rewrite Hf. simpl. by rewrite drop_app_length.
Qed.

(** The body never raises: it returns an image and emits nothing, or
    returns [None] after one warning. *)
Lemma load_image_body_spec w p :
  ∃ w' v es,
    load_image_body exn_str identifiable p w = (w', Ok v)
    ∧ files w' = files w ∧ image_cache w' = image_cache w
    ∧ page w' = page w ++ es
    ∧ entry_ok (CacheEntry v es).
Proof.
  destruct w as [fs c pg].
  unfold load_image_body, try_except, mbind, M_bind, path_exists,
    fmap, M_fmap, image_open, entry_ok. simpl.
  destruct (fs !! p) as [[bs|]|] eqn:Hf; simpl; rewrite ?Hf; simpl;
    try destruct (identifiable bs); simpl;
    eexists _, _, _; (split; [reflexivity|]); simpl;
    repeat split; rewrite ?app_nil_r; eauto.
Qed.

(** Whatever [load_image] stores keeps the cache well formed, and a
    failed pickling stores nothing. *)
Lemma load_image_cache_ok w p :
  cache_ok w → cache_ok (load p w).1.
Proof.
  intros Hok. unfold load_image, cache_data.
  destruct (image_cache w !! p) as [en|] eqn:Hc; [done|].
  destruct (load_image_body_spec w p)
    as (w' & v & es & -> & Hf & Hcache & Hpage & Hentry).
  unfold cache_ok. destruct (pickles loadable v); simpl.
  - rewrite Hcache, Hpage, drop_app_length.
    by apply map_Forall_insert_2.
  - by rewrite Hcache.
Qed.

(** A fresh process starts with an empty cache, and every render keeps
    the cache well formed. *)
Lemma cache_ok_empty fs pg : cache_ok (World fs ∅ pg).
Proof. apply map_Forall_empty. Qed.

Lemma display_plot_cache_ok w p title description :
  cache_ok w → cache_ok (display p title description w).1.
Proof.
  intros Hok. unfold display_plot, mbind, M_bind, emit.
  destruct (decide (description = EmptyString)); simpl;
    match goal with
    | |- context [load_image _ _ _ p ?w2] =>
        pose proof (load_image_cache_ok w2 p Hok) as Hok';
        destruct (load_image exn_str identifiable loadable p w2)
          as [w3 [[img|]|err]]
    end; done.
Qed.

(** A path with no file and no cached image: [None], one warning. *)
Lemma load_image_absent w p :
  cache_ok w →
  files w !! p = None →
  (∀ en, image_cache w !! p = Some en → cached_value en = None) →
  ∃ c msg,
    load p w = (World (files w) c (page w ++ [Warning msg]), Ok None).
Proof.
  intros Hok Hf Hnoimg.
  destruct (image_cache w !! p) as [en|] eqn:Hc.
  - pose proof (Hnoimg en eq_refl) as Hv.
    pose proof (Hok p en Hc) as Hen. unfold entry_ok in Hen.
    rewrite Hv in Hen. destruct Hen as [msg Hmsg].
    eexists _, msg. by rewrite (load_image_hit w p en Hc), Hv, Hmsg.
  - eexists _, _. by rewrite (load_image_miss_absent w p Hc Hf).
Qed.

(** In any state whose cache holds no image for a path with no file,
    [display_plot] returns [False] without raising; after the heading
    (and the description, if any) the page gains one warning, emitted
    now or replayed from the cache, and the error notice. *)
Lemma display_plot_missing w p title description :
  cache_ok w →
  files w !! p = None →
  (∀ en, image_cache w !! p = Some en → cached_value en = None) →
  ∃ w' msg,
    display p title description w = (w', Ok false)
    ∧ files w' = files w
    ∧ page w' =
        page w ++ [Heading title]
        ++ (if decide (description = EmptyString) then []
            else [Caption description])
        ++ [Warning msg; Error ("Could not load: " +:+ title)]
    ∧ count_warnings (drop (length (page w)) (page w')) = 1%nat.
Proof.
  intros Hok Hf Hnoimg. unfold display_plot, mbind, M_bind, emit.
  destruct (decide (description = EmptyString)); simpl;
    match goal with
    | |- context [load_image _ _ _ p ?w2] =>
        destruct (load_image_absent w2 p Hok Hf Hnoimg)
          as (c & msg & ->)
    end; simpl;
    eexists _, msg; (split; [reflexivity|]); simpl;
    rewrite <- !(assoc_L (++)); simpl;
    repeat split; by rewrite drop_app_length.
Qed.

(** ** The states a process reaches *)

(** [load_image] leaves the files alone and stores under its own path
    only. *)
Lemma load_image_frame w p :
  files (load p w).1 = files w
  ∧ ∀ q, q ≠ p → image_cache (load p w).1 !! q = image_cache w !! q.
Proof.
  unfold load_image, cache_data.
  destruct (image_cache w !! p) as [en|] eqn:Hc; [done|].
  destruct (load_image_body_spec w p)
    as (w' & v & es & -> & Hf & Hcache & Hpage & Hentry).
  destruct (pickles loadable v); simpl; rewrite Hcache; split; try done.
  intros q Hq. by rewrite lookup_insert_ne.
Qed.

Lemma load_image_cache_fresh w p :
  cache_fresh w → cache_fresh (load p w).1.
Proof.
  intros Hfresh q en.
  destruct (load_image_frame w p) as [Hfiles Hother].
  rewrite Hfiles. intros Hq Hf.
  destruct (decide (q = p)) as [->|Hne].
  - destruct (image_cache w !! p) as [en'|] eqn:Hc.
    + rewrite (load_image_hit w p en' Hc) in Hq. simpl in Hq.
      apply Hfresh; [congruence|done].
    + rewrite (load_image_miss_absent w p Hc Hf) in Hq. simpl in Hq.
      rewrite lookup_insert_eq in Hq. congruence.
  - rewrite (Hother q Hne) in Hq. by apply Hfresh.
Qed.

(** What [display_plot] does to the files and the cache is what its call
    of [load_image] does. *)
Lemma display_plot_store w p title description :
  ∃ pg,
    let w2 := (load p (World (files w) (image_cache w) pg)).1 in
    files (display p title description w).1 = files w2
    ∧ image_cache (display p title description w).1 = image_cache w2.
Proof.
  unfold display_plot, mbind, M_bind, emit.
  destruct (decide (description = EmptyString)); simpl;
    match goal with
    | |- context [load_image _ _ _ p (World _ _ ?pg)] =>
        exists pg;
        destruct (load_image exn_str identifiable loadable p _)
          as [w3 [[img|]|err]]
    end; done.
Qed.

Lemma perform_invariant a w :
  cache_ok w → cache_fresh w →
  files (do a w) = files w ∧ cache_ok (do a w) ∧ cache_fresh (do a w).
Proof.
  intros Hok Hfresh. destruct a as [p title description|e| |]; simpl.
  - destruct (display_plot_store w p title description)
      as (pg & Hfiles & Hcache).
    destruct (load_image_frame (World (files w) (image_cache w) pg) p)
      as [Hframe _].
    pose proof (load_image_cache_fresh
                  (World (files w) (image_cache w) pg) p Hfresh) as Hfresh'.
    split; [by rewrite Hfiles, Hframe|].
    split; [by apply display_plot_cache_ok|].
    unfold cache_fresh. rewrite Hfiles, Hcache. exact Hfresh'.
  - done.
  - done.
  - repeat split; [apply map_Forall_empty|]. intros q en Hq.
    simpl in Hq. by rewrite lookup_empty in Hq.
Qed.

(** Every state of a process has the files it started with and a cache
    that is well formed and holds, for a path with no file, nothing but
    the outcome of the not-found branch. *)
Lemma run_invariant fs steps :
  let w := run exn_str identifiable loadable fs steps in
  files w = fs ∧ cache_ok w ∧ cache_fresh w.
Proof.
  unfold run.
  assert (∀ w0, files w0 = fs → cache_ok w0 → cache_fresh w0 →
            let w := foldl (λ w a, do a w) w0 steps in
            files w = fs ∧ cache_ok w ∧ cache_fresh w) as Hgen.
  { induction steps as [|a steps IH]; intros w0 Hf Hok Hfresh; [done|].
    simpl. destruct (perform_invariant a w0 Hok Hfresh)
      as (Hf' & Hok' & Hfresh').
    apply IH; [congruence|done|done]. }
  apply Hgen; [done|apply cache_ok_empty|].
  intros q en Hq. simpl in Hq. by rewrite lookup_empty in Hq.
Qed.

(** With no file at the path, [load_image] finds in such a cache what it
    would compute. *)
Lemma load_image_not_found w p :
  cache_fresh w →
  files w !! p = None →
  ∃ c,
    load p w
    = (World (files w) c (page w ++ [Warning ("Image not found: " +:+ p)]),
       Ok None).
Proof.
  intros Hfresh Hf.
  destruct (image_cache w !! p) as [en|] eqn:Hc.
  - rewrite (load_image_hit w p en Hc), (Hfresh p en Hc Hf). eauto.
  - rewrite (load_image_miss_absent w p Hc Hf). eauto.
Qed.

(** C7. Artifacts are files that do not change while the dashboard
    runs. In every state a process reaches (after any number of plots
    shown, other elements, new render passes and cache clearings), for
    every path with no file, [load_image] returns [None] and
    [display_plot] returns [False], neither raises, and after the
    heading (and the description, if any) the page gains exactly one
    warning, ["Image not found: <path>"], followed by the error
    notice. *)
Theorem display_plot_not_found fs steps p title description :
  fs !! p = None →
  let w := run exn_str identifiable loadable fs steps in
  (load_image exn_str identifiable loadable p w).2 = Ok None
  ∧ ∃ w',
      display_plot exn_str identifiable loadable p title description w
      = (w', Ok false)
      ∧ files w' = fs
      ∧ page w' =
          page w ++ [Heading title]
          ++ (if decide (description = EmptyString) then []
              else [Caption description])
          ++ [Warning ("Image not found: " +:+ p);
              Error ("Could not load: " +:+ title)]
      ∧ count_warnings (drop (length (page w)) (page w')) = 1%nat.
Proof.
  intros Hf w.
  destruct (run_invariant fs steps) as (Hfs & Hok & Hfresh).
  fold w in Hfs, Hok, Hfresh. rewrite <- Hfs in Hf.
  split.
  { by destruct (load_image_not_found w p Hfresh Hf) as (c & ->). }
  unfold display_plot, mbind, M_bind, emit.
  destruct (decide (description = EmptyString)); simpl;
    match goal with
    | |- context [load_image _ _ _ p ?w2] =>
        destruct (load_image_not_found w2 p Hfresh Hf) as (c & ->)
    end; simpl;
    eexists; (split; [reflexivity|]); simpl;
    rewrite <- !(assoc_L (++)); simpl;
    repeat split; try done; by rewrite drop_app_length.
Qed.

End DisplayFacts.

(** C7 in the second render pass of a process that has no file for the
    plot it shows: the warning comes from the cache. *)
Lemma display_plot_not_found_witness :
  let fs : gmap string node := {[ "report.txt" := File [x0a] ]} in
  let steps := [ShowPlot "plot.png" "Rain" "Trend"; Rerun] in
  let w := run (λ _, "error") (λ _, false) (λ _, false) fs steps in
  fs !! "plot.png" = None
  ∧ (load_image (λ _, "error") (λ _, false) (λ _, false) "plot.png" w).2
    = Ok None
  ∧ ∃ w',
      display_plot (λ _, "error") (λ _, false) (λ _, false) "plot.png"
        "Rain" "Trend" w = (w', Ok false)
      ∧ files w' = fs
      ∧ page w' =
          page w ++ [Heading "Rain"] ++ [Caption "Trend"]
          ++ [Warning ("Image not found: " +:+ "plot.png");
              Error ("Could not load: " +:+ "Rain")]
      ∧ count_warnings (drop (length (page w)) (page w')) = 1%nat.
Proof.
  split; [reflexivity|].
  apply (display_plot_not_found (λ _, "error") (λ _, false) (λ _, false)
           {[ "report.txt" := File [x0a] ]}
           [ShowPlot "plot.png" "Rain" "Trend"; Rerun]
           "plot.png" "Rain" "Trend").
  reflexivity.
Defined.

(** * The extraction, statement by statement *)

Section BlockFacts.

Variable uni_decimal : N → option N.
Variable uni_alnum : N → bool.

Abbreviation block := (metrics_block uni_decimal uni_alnum).

Ltac block_step :=
  cbv beta iota zeta delta
    [metrics_block mbind P_bind mret P_ret get re_search float_of
     set_corr_match set_elastic_match set_month_match
     setitem_rain_metrics st_world st_rain_report st_rain_metrics
     st_corr_match st_elastic_match st_month_match result_bind fmap
     result_fmap fst snd].

Ltac block_cases t :=
  block_step;
  destruct (search (corr_re uni_decimal) t) as [gc|]; block_step;
    [destruct (py_float uni_decimal (group1 gc)) as [qc|ec]; block_step|];
  (destruct (search (elastic_re uni_decimal) t) as [ge|]; block_step;
    [destruct (py_float uni_decimal (group1 ge)) as [qe|ee]; block_step|]);
  destruct (search (month_re uni_alnum) t) as [gm|]; block_step.

(** One run of the block: the world and the report are as before, the
    outcome is that of [extract_metrics] on the report, and when that
    is a map the dictionary holds its keys over those it had. *)
Lemma metrics_block_run st :
  ∃ d cm em mm,
    block st
    = (Script (st_world st) (st_rain_report st) d cm em mm,
       (λ _, ()) <$>
         extract_metrics uni_decimal uni_alnum (st_rain_report st))
    ∧ ∀ m,
        extract_metrics uni_decimal uni_alnum (st_rain_report st) = Ok m →
        d = m ∪ st_rain_metrics st.
Proof.
  destruct st as [w t d0 cm0 em0 mm0].
  destruct t as [|c t'].
  - exists d0, cm0, em0, mm0. split; [done|].
    intros m [= <-]. by rewrite (left_id_L ∅ (∪)).
  - rewrite extract_metrics_eq. block_cases (c :: t');
      eexists _, _, _, _; (split; [reflexivity|]);
      intros m [= <-];
      by rewrite <- ?insert_union_l, (left_id_L ∅ (∪)).
Qed.

(** The step of the script is [extract_metrics] of the report, in an
    unchanged world. *)
Lemma extract_step_eq t w :
  extract_step uni_decimal uni_alnum t w
  = (w, extract_metrics uni_decimal uni_alnum t).
Proof.
  unfold extract_step.
  destruct (metrics_block_run (Script w t ∅ None None None))
    as (d & cm & em & mm & -> & Hd).
  cbn [st_world st_rain_report st_rain_metrics] in *.
  destruct (extract_metrics uni_decimal uni_alnum t) as [m|e]; [|done].
  simpl. by rewrite (Hd m eq_refl), (right_id_L ∅ (∪)).
Qed.

(** C8. Lines 520-535, run from any two states of the script that agree
    on the report and on the dictionary (the worlds, and whatever the
    three match variables hold from before, may differ), have the same
    outcome and leave the same dictionary, also when a conversion
    raises; neither run changes its world or the report; the outcome is
    that of [extract_metrics] on the report; and from the empty
    dictionary of line 510 the dictionary left by a run that returns is
    the map [extract_metrics] gives. *)
Theorem metrics_block_pure t d w1 cm1 em1 mm1 w2 cm2 em2 mm2 :
  let run1 := metrics_block uni_decimal uni_alnum
                (Script w1 t d cm1 em1 mm1) in
  let run2 := metrics_block uni_decimal uni_alnum
                (Script w2 t d cm2 em2 mm2) in
  run1.2 = run2.2
  ∧ st_rain_metrics run1.1 = st_rain_metrics run2.1
  ∧ st_world run1.1 = w1 ∧ st_world run2.1 = w2
  ∧ st_rain_report run1.1 = t ∧ st_rain_report run2.1 = t
  ∧ run1.2 = (λ _, ()) <$> extract_metrics uni_decimal uni_alnum t
  ∧ match extract_metrics uni_decimal uni_alnum t with
    | Ok m => st_rain_metrics run1.1 = m ∪ d
    | Raise _ => True
    end.
Proof.
  destruct t as [|c t'].
  - simpl. by rewrite (left_id_L ∅ (∪)).
  - rewrite extract_metrics_eq. block_cases (c :: t');
      repeat split;
      by rewrite <- ?insert_union_l, (left_id_L ∅ (∪)).
Qed.

End BlockFacts.

(** * Concrete runs *)



(** X21 on a report with the correlation and month lines only. *)
Lemma missing_elasticity_witness :
  contains (lit "Elasticity:") no_elasticity_report = false
  ∧ ∃ m, extract_metrics no_decimal no_alnum no_elasticity_report = Ok m
         ∧ m !! "elasticity" = None
         ∧ elastic_val m = VFloat (dec (-40) 2).
Proof.
  split; [vm_compute; reflexivity|].
  eexists. split; [vm_compute; reflexivity|].
  apply (missing_elasticity_uses_default no_decimal no_alnum
           no_elasticity_report);
    vm_compute; reflexivity.
Defined.

(** X20 on a report with two correlation lines: the first one counts. *)
Lemma search_leftmost_witness :
  ∃ m, extract_metrics no_decimal no_alnum two_correlations = Ok m
       ∧ m !! "correlation" = Some (VFloat (dec 5 1)).
Proof.
  destruct (search_leftmost_independent no_decimal no_alnum
              two_correlations) as (_ & _ & Hkeys & Hreturns).
  destruct Hreturns as [m Hm].
  - intros gs Hgs. vm_compute in Hgs. injection Hgs as <-.
    eexists. vm_compute. reflexivity.
  - intros gs Hgs. vm_compute in Hgs. discriminate.
  - exists m. split; [exact Hm|].
    apply (Hkeys m Hm). exists [lit "0.5"], (dec 5 1).
    repeat split; vm_compute; reflexivity.
Defined.

(** C6 on the UTF-8 bytes of U+00E9 and a line feed. *)
Lemma safe_read_text_decodes_witness :
  let w := World {[ "report.txt" := File [xc3; xa9; x0a] ]} ∅ [] in
  files w !! "report.txt" = Some (File [xc3; xa9; x0a])
  ∧ safe_read_text (λ _, "error") "report.txt" w = (w, Ok [233; 10]).
Proof.
  split; [reflexivity|].
  apply (safe_read_text_decodes (λ _, "error")
           (World {[ "report.txt" := File [xc3; xa9; x0a] ]} ∅ [])
           "report.txt" [xc3; xa9; x0a]); [reflexivity|].
  intros H. repeat (apply elem_of_cons in H as [H|H]; [discriminate|]).
  by apply elem_of_nil in H.
Defined.

(** C10 on bytes that are not UTF-8: [0xFF] then ["May"]. *)
Lemma safe_read_text_total_witness :
  let w := World {[ "report.txt" := File [xff; x4d; x61; x79] ]} ∅ [] in
  files w !! "report.txt" = Some (File [xff; x4d; x61; x79])
  ∧ safe_read_text (λ _, "error") "report.txt" w
    = (w, Ok [255; 77; 97; 121]).
Proof.
  split; [reflexivity|].
  apply (safe_read_text_total (λ _, "error")
           (World {[ "report.txt" := File [xff; x4d; x61; x79] ]} ∅ [])
           "report.txt" [xff; x4d; x61; x79]).
  reflexivity.
Defined.

(** * Further properties: what the patterns capture *)

Lemma run_of_split cls s :
  s = run_of cls s ++ drop (length (run_of cls s)) s.
Proof.
  induction s as [|c s IH]; [done|]. simpl.
  destruct (cls c); [|done]. simpl. by rewrite <- IH.
Qed.

Lemma run_of_Forall cls s : Forall (λ c, cls c = true) (run_of cls s).
Proof.
  induction s as [|c s IH]; simpl; [constructor|].
  destruct (cls c) eqn:Hc; by constructor.
Qed.

Lemma run_of_stop cls s :
  match drop (length (run_of cls s)) s with
  | [] => True
  | c :: _ => cls c = false
  end.
Proof.
  induction s as [|c s IH]; [done|]. simpl.
  destruct (cls c) eqn:Hc; [apply IH|done].
Qed.

Lemma run_of_app cls g post :
  Forall (λ c, cls c = true) g →
  match post with [] => True | c :: _ => cls c = false end →
  run_of cls (g ++ post) = g.
Proof.
  intros Hg Hpost. induction Hg as [|c g Hc _ IH]; simpl.
  - destruct post as [|c post]; [done|]. simpl. by rewrite Hpost.
  - by rewrite Hc, IH.
Qed.

Lemma match_here_lits p r rest :
  match_here ((Lit <$> p) ++ r) (p ++ rest) = match_here r rest.
Proof.
  induction p as [|a p IH]; [done|]. simpl. by rewrite N.eqb_refl.
Qed.

Lemma starts_with_split p s :
  starts_with p s = true → ∃ rest, s = p ++ rest.
Proof.
  revert s. induction p as [|a p IH]; intros s; [by exists s|].
  destruct s as [|b s]; simpl; [done|].
  intros [Hb Hs]%andb_true_iff. apply N.eqb_eq in Hb as ->.
  destruct (IH s Hs) as [rest ->]. by exists rest.
Qed.

(** A group at the end of a pattern takes the whole run. *)
Lemma match_here_group_end cls s gs :
  match_here [GroupPlus cls] s = Some gs ↔
  run_of cls s ≠ [] ∧ gs = [run_of cls s].
Proof.
  simpl. destruct (run_of cls s) as [|c run] eqn:Hrun; simpl.
  - split; [done|]. by intros [? _].
  - rewrite firstn_all. split; [by intros [= <-]|by intros [_ ->]].
Qed.

(** Giving characters back never helps when the next literal is outside
    the class. *)
Lemma backtrack_lit_fail cls q run rest n :
  Forall (λ c, cls c = true) run → cls q = false →
  (n < length run)%nat →
  backtrack (match_here [Lit q]) n run rest = None.
Proof.
  intros Hrun Hq. induction n as [|n IH]; intros Hn; [done|].
  cbn [backtrack].
  destruct (drop (S n) run) as [|c tl] eqn:Hdrop.
  { apply (f_equal length) in Hdrop. rewrite length_drop in Hdrop.
    simpl in Hdrop. lia. }
  assert (c ∈ run) as Hc.
  { apply (list_elem_of_lookup_2 _ (S n)).
    rewrite <- (Nat.add_0_r (S n)), <- lookup_drop, Hdrop. done. }
  rewrite Forall_forall in Hrun. apply Hrun in Hc.
  simpl. destruct (N.eqb_spec c q) as [->|_]; [congruence|].
  apply IH. lia.
Qed.

Lemma match_here_group_lit cls q s gs :
  cls q = false →
  match_here [GroupPlus cls; Lit q] s = Some gs ↔
  run_of cls s ≠ []
  ∧ (∃ rest, drop (length (run_of cls s)) s = q :: rest)
  ∧ gs = [run_of cls s].
Proof.
  intros Hq. cbn [match_here].
  pose proof (run_of_Forall cls s) as Hrun.
  pose proof (backtrack_lit_fail cls q (run_of cls s)
                (drop (length (run_of cls s)) s)) as Hfail.
  fold (match_here [Lit q]) in *.
  destruct (run_of cls s) as [|c run] eqn:Erun.
  { simpl. split; [done|]. by intros [? _]. }
  set (whole := c :: run) in *. set (k := match_here [Lit q]) in *.
  change (length whole) with (S (length run)) in *. cbn [backtrack].
  change (S (length run)) with (length whole) in *.
  rewrite drop_all, firstn_all. simpl app.
  rewrite (Hfail (length run) Hrun Hq) by (simpl; lia).
  change (drop (S (length run)) s) with (drop (length whole) s).
  destruct (drop (length whole) s) as [|d rest] eqn:Hrest.
  - change (k []) with (@None (list text)).
    split; [done|]. by intros (_ & [? ?] & _).
  - change (k (d :: rest)) with (if d =? q then Some [] else @None (list text)).
    destruct (N.eqb_spec d q) as [->|Hd].
    + split; [intros [= <-]; eauto|by intros (_ & _ & ->)].
    + split; [done|]. intros (_ & [? [= ? _]] & _). done.
Qed.

Lemma run_of_nonempty cls s :
  run_of cls s ≠ [] ↔ ∃ c s', s = c :: s' ∧ cls c = true.
Proof.
  destruct s as [|c s]; simpl.
  - split; [done|]. by intros (? & ? & ? & _).
  - destruct (cls c) eqn:Hc.
    + split; [eauto|done].
    + split; [done|]. intros (? & ? & [= <- <-] & ?). congruence.
Qed.

Lemma search_is_Some r t :
  is_Some (search r t) ↔
  ∃ i, (i ≤ length t)%nat ∧ is_Some (match_here r (drop i t)).
Proof.
  split.
  - intros [gs (i & Hi & Hm & _)%search_first_match]. eauto.
  - intros (i & Hi & [gs Hm]).
    destruct (search r t) eqn:Hs; [done|].
    rewrite search_None in Hs. rewrite (Hs i Hi) in Hm. done.
Qed.

(** A label followed by a group, anchored: the text starts with the
    label and the group is the run that follows it. *)
Lemma label_run_at p cls s gs :
  match_here ((Lit <$> p) ++ [GroupPlus cls]) s = Some gs ↔
  ∃ rest, s = p ++ rest ∧ run_of cls rest ≠ [] ∧ gs = [run_of cls rest].
Proof.
  split.
  - intros Hm. pose proof (match_here_literal _ _ _ _ Hm) as Hp.
    apply starts_with_split in Hp as [rest ->]. exists rest.
    rewrite match_here_lits, match_here_group_end in Hm.
    by destruct Hm as [Hne ->].
  - intros (rest & -> & Hne & ->).
    rewrite match_here_lits. by apply match_here_group_end.
Qed.

Lemma label_run_lit_at p cls q s gs :
  cls q = false →
  match_here ((Lit <$> p) ++ [GroupPlus cls; Lit q]) s = Some gs ↔
  ∃ g post, s = p ++ g ++ q :: post ∧ g ≠ []
            ∧ Forall (λ c, cls c = true) g ∧ gs = [g].
Proof.
  intros Hq. split.
  - intros Hm. pose proof (match_here_literal _ _ _ _ Hm) as Hp.
    apply starts_with_split in Hp as [rest ->].
    rewrite match_here_lits, match_here_group_lit in Hm by done.
    destruct Hm as (Hne & [post Hpost] & ->).
    exists (run_of cls rest), post. repeat split; try done.
    + f_equal. rewrite <- Hpost. apply run_of_split.
    + apply run_of_Forall.
  - intros (g & post & -> & Hne & Hg & ->).
    rewrite match_here_lits. apply match_here_group_lit; [done|].
    rewrite (run_of_app cls g (q :: post)) by done.
    rewrite drop_app_length. eauto.
Qed.

(** The whole story of [search] for a label followed by a group: the
    capture is the longest run of class characters after the first
    occurrence of the label that is followed by a class character. *)
Lemma search_label_run p cls t gs :
  search ((Lit <$> p) ++ [GroupPlus cls]) t = Some gs ↔
  ∃ pre g post,
    t = pre ++ p ++ g ++ post ∧ gs = [g] ∧ g ≠ []
    ∧ Forall (λ c, cls c = true) g
    ∧ match post with [] => True | c :: _ => cls c = false end
    ∧ ∀ pre' c post', t = pre' ++ p ++ c :: post' → cls c = true →
                      (length pre ≤ length pre')%nat.
Proof.
  rewrite search_first_match. split.
  - intros (i & Hi & Hm & Hbefore).
    apply label_run_at in Hm as (rest & Hdrop & Hne & ->).
    exists (take i t), (run_of cls rest),
      (drop (length (run_of cls rest)) rest).
    repeat split; try done.
    + rewrite <- run_of_split, <- Hdrop. by rewrite take_drop.
    + apply run_of_Forall.
    + apply run_of_stop.
    + intros pre' c post' Ht Hc. rewrite length_take.
      destruct (decide (length pre' < i)%nat) as [Hlt|]; [|lia].
      specialize (Hbefore _ Hlt). rewrite Ht, drop_app_length in Hbefore.
      assert (is_Some (match_here ((Lit <$> p) ++ [GroupPlus cls])
                         (p ++ c :: post'))) as [? Hsome]; [|congruence].
      eexists. apply label_run_at. eexists. split; [done|].
      simpl. by rewrite Hc.
  - intros (pre & g & post & -> & -> & Hne & Hg & Hpost & Hleft).
    exists (length pre). repeat split.
    + rewrite length_app. lia.
    + rewrite drop_app_length. apply label_run_at. exists (g ++ post).
      by rewrite (run_of_app cls g post).
    + intros j Hj.
      destruct (match_here _ (drop j _)) as [gs|] eqn:Hm; [|done].
      apply label_run_at in Hm as (rest & Hdrop & Hrun & _).
      apply run_of_nonempty in Hrun as (c & s' & -> & Hc).
      pose proof (take_drop j (pre ++ p ++ g ++ post)) as Hsplit.
      rewrite Hdrop in Hsplit. symmetry in Hsplit.
      specialize (Hleft _ _ _ Hsplit Hc).
      rewrite length_take, length_app in Hleft. lia.
Qed.

Lemma search_label_run_lit p cls q t gs :
  cls q = false →
  search ((Lit <$> p) ++ [GroupPlus cls; Lit q]) t = Some gs ↔
  ∃ pre g post,
    t = pre ++ p ++ g ++ q :: post ∧ gs = [g] ∧ g ≠ []
    ∧ Forall (λ c, cls c = true) g
    ∧ ∀ pre' g' post', t = pre' ++ p ++ g' ++ q :: post' → g' ≠ [] →
                       Forall (λ c, cls c = true) g' →
                       (length pre ≤ length pre')%nat.
Proof.
  intros Hq. rewrite search_first_match. split.
  - intros (i & Hi & Hm & Hbefore).
    apply label_run_lit_at in Hm as (g & post & Hdrop & Hne & Hg & ->);
      [|done].
    exists (take i t), g, post. repeat split; try done.
    + rewrite <- Hdrop. by rewrite take_drop.
    + intros pre' g' post' Ht Hne' Hg'. rewrite length_take.
      destruct (decide (length pre' < i)%nat) as [Hlt|]; [|lia].
      specialize (Hbefore _ Hlt). rewrite Ht, drop_app_length in Hbefore.
      assert (is_Some (match_here ((Lit <$> p) ++ [GroupPlus cls; Lit q])
                         (p ++ g' ++ q :: post'))) as [? Hsome];
        [|congruence].
      eexists. apply label_run_lit_at; [done|]. eauto 10.
  - intros (pre & g & post & -> & -> & Hne & Hg & Hleft).
    exists (length pre). repeat split.
    + rewrite length_app. lia.
    + rewrite drop_app_length. apply label_run_lit_at; [done|]. eauto 10.
    + intros j Hj.
      destruct (match_here _ (drop j _)) as [gs|] eqn:Hm; [|done].
      apply label_run_lit_at in Hm as (g' & post' & Hdrop & Hne' & Hg' & _);
        [|done].
      pose proof (take_drop j (pre ++ p ++ g ++ q :: post)) as Hsplit.
      rewrite Hdrop in Hsplit. symmetry in Hsplit.
      specialize (Hleft _ _ _ Hsplit Hne' Hg').
      rewrite length_take, length_app in Hleft. lia.
Qed.

Section CaptureFacts.

Variable uni_decimal : N → option N.
Variable uni_alnum : N → bool.

Lemma percent_not_numch : is_numch uni_decimal 37 = false.
Proof. reflexivity. Qed.

Lemma corr_re_eq :
  corr_re uni_decimal
  = (Lit <$> lit "Correlation coefficient: ")
    ++ [GroupPlus (is_numch uni_decimal)].
Proof. reflexivity. Qed.

Lemma month_re_eq :
  month_re uni_alnum
  = (Lit <$> lit "Wettest month: ") ++ [GroupPlus (is_word uni_alnum)].
Proof. reflexivity. Qed.

Lemma elastic_re_eq :
  elastic_re uni_decimal
  = (Lit <$> lit "Elasticity: ")
    ++ [GroupPlus (is_numch uni_decimal); Lit 37].
Proof. reflexivity. Qed.

Lemma label_run_found p cls t :
  is_Some (search ((Lit <$> p) ++ [GroupPlus cls]) t) ↔
  ∃ pre c post, t = pre ++ p ++ c :: post ∧ cls c = true.
Proof.
  rewrite search_is_Some. split.
  - intros (i & Hi & [gs Hm]).
    apply label_run_at in Hm as (rest & Hdrop & Hrun & _).
    apply run_of_nonempty in Hrun as (c & post & -> & Hc).
    exists (take i t), c, post. split; [|done].
    rewrite <- Hdrop. by rewrite take_drop.
  - intros (pre & c & post & -> & Hc). exists (length pre).
    split; [rewrite length_app; lia|].
    rewrite drop_app_length. eexists. apply label_run_at.
    eexists. split; [done|]. simpl. by rewrite Hc.
Qed.

(** X1. Whether a value is looked up at all: the correlation (month)
    pattern is found exactly when some occurrence of its label is
    directly followed by a character of [[\d.-]] (of [\w]); the
    elasticity pattern exactly when some occurrence of its label is
    followed by a non-empty run of [[\d.-]] and then a percent sign. *)
Theorem label_found_iff t :
  (is_Some (search (corr_re uni_decimal) t) ↔
   ∃ pre c post,
     t = pre ++ lit "Correlation coefficient: " ++ c :: post
     ∧ is_numch uni_decimal c = true)
  ∧ (is_Some (search (month_re uni_alnum) t) ↔
     ∃ pre c post,
       t = pre ++ lit "Wettest month: " ++ c :: post
       ∧ is_word uni_alnum c = true)
  ∧ (is_Some (search (elastic_re uni_decimal) t) ↔
     ∃ pre g post,
       t = pre ++ lit "Elasticity: " ++ g ++ 37 :: post
       ∧ g ≠ [] ∧ Forall (λ c, is_numch uni_decimal c = true) g).
Proof.
  rewrite corr_re_eq, month_re_eq, elastic_re_eq.
  split; [apply label_run_found|]. split; [apply label_run_found|].
  rewrite search_is_Some. split.
  - intros (i & Hi & [gs Hm]).
    apply label_run_lit_at in Hm as (g & post & Hdrop & Hne & Hg & _);
      [|apply percent_not_numch].
    exists (take i t), g, post. split; [|done].
    rewrite <- Hdrop. by rewrite take_drop.
  - intros (pre & g & post & -> & Hne & Hg). exists (length pre).
    split; [rewrite length_app; lia|].
    rewrite drop_app_length. eexists.
    apply label_run_lit_at; [apply percent_not_numch|]. eauto 10.
Qed.

(** X2. What the correlation and month patterns capture: the longest
    run of class characters that follows the first occurrence of the
    label which has such a character right after it.  The capture is
    never empty and never holds a character outside the class. *)
Theorem capture_is_longest_run t gs :
  (search (corr_re uni_decimal) t = Some gs ↔
   ∃ pre g post,
     t = pre ++ lit "Correlation coefficient: " ++ g ++ post
     ∧ gs = [g] ∧ g ≠ []
     ∧ Forall (λ c, is_numch uni_decimal c = true) g
     ∧ match post with
       | [] => True
       | c :: _ => is_numch uni_decimal c = false
       end
     ∧ ∀ pre' c post',
         t = pre' ++ lit "Correlation coefficient: " ++ c :: post' →
         is_numch uni_decimal c = true → (length pre ≤ length pre')%nat)
  ∧ (search (month_re uni_alnum) t = Some gs ↔
     ∃ pre g post,
       t = pre ++ lit "Wettest month: " ++ g ++ post
       ∧ gs = [g] ∧ g ≠ []
       ∧ Forall (λ c, is_word uni_alnum c = true) g
       ∧ match post with
         | [] => True
         | c :: _ => is_word uni_alnum c = false
         end
       ∧ ∀ pre' c post',
           t = pre' ++ lit "Wettest month: " ++ c :: post' →
           is_word uni_alnum c = true → (length pre ≤ length pre')%nat).
Proof.
  rewrite corr_re_eq, month_re_eq. split; apply search_label_run.
Qed.

(** X3. What the elasticity pattern captures: the whole run of
    [[\d.-]] characters between the label and the percent sign, at the
    first place where label, non-empty run and percent sign follow one
    another.  Backtracking never shortens the number. *)
Theorem elasticity_capture t gs :
  search (elastic_re uni_decimal) t = Some gs ↔
  ∃ pre g post,
    t = pre ++ lit "Elasticity: " ++ g ++ 37 :: post
    ∧ gs = [g] ∧ g ≠ []
    ∧ Forall (λ c, is_numch uni_decimal c = true) g
    ∧ ∀ pre' g' post',
        t = pre' ++ lit "Elasticity: " ++ g' ++ 37 :: post' → g' ≠ [] →
        Forall (λ c, is_numch uni_decimal c = true) g' →
        (length pre ≤ length pre')%nat.
Proof.
  rewrite elastic_re_eq. apply search_label_run_lit, percent_not_numch.
Qed.

End CaptureFacts.

(** * Further properties: which numerals [float] accepts *)

Section FloatFacts.

Variable uni_decimal : N → option N.

Abbreviation digit := (λ c, is_digit uni_decimal c = true).
Abbreviation numch := (λ c, is_numch uni_decimal c = true).

Lemma digit_not_punct c : digit c → c ≠ 46 ∧ c ≠ 45 ∧ c ≠ 43.
Proof.
  unfold is_digit, to_decimal.
  destruct (N.ltb_spec c 128); [|lia].
  destruct (N.leb_spec 48 c); simpl; [|done].
  intros _. lia.
Qed.

Lemma numch_cases c : numch c → digit c ∨ c = 46 ∨ c = 45.
Proof.
  unfold is_numch. intros [[H|H%N.eqb_eq]%orb_true_iff|H%N.eqb_eq]%orb_true_iff;
    auto.
Qed.

Lemma digits_of_spec s :
  ∃ run,
    s = run ++ (digits_of uni_decimal s).2
    ∧ Forall digit run
    ∧ length (digits_of uni_decimal s).1 = length run
    ∧ match (digits_of uni_decimal s).2 with
      | [] => True
      | c :: _ => is_digit uni_decimal c = false
      end.
Proof.
  induction s as [|c s (run & Hs & Hrun & Hlen & Hstop)]; [by exists []|].
  simpl. destruct (to_decimal uni_decimal c) as [d|] eqn:Hc.
  - destruct (digits_of uni_decimal s) as [ds rest]. simpl in *.
    exists (c :: run). repeat split; simpl; try congruence.
    constructor; [|done]. unfold is_digit. by rewrite Hc.
  - exists []. simpl. repeat split; [constructor|].
    unfold is_digit. by rewrite Hc.
Qed.

Lemma count_of_app a l1 l2 :
  count_of a (l1 ++ l2) = (count_of a l1 + count_of a l2)%nat.
Proof. unfold count_of. by rewrite List.filter_app, length_app. Qed.

Lemma count_of_digits a run :
  Forall digit run → a = 46 ∨ a = 45 → count_of a run = 0%nat.
Proof.
  intros Hrun Ha. induction Hrun as [|c run Hc _ IH]; [done|].
  unfold count_of in *. simpl.
  destruct (N.eqb_spec c a) as [->|_]; [|done].
  apply digit_not_punct in Hc. lia.
Qed.

Lemma digits_no_hyphen run : Forall digit run → 45 ∉ run.
Proof.
  intros Hrun Hin. rewrite Forall_forall in Hrun.
  apply Hrun, digit_not_punct in Hin. lia.
Qed.

Lemma digits_Exists run : Forall digit run → Exists digit run ↔ run ≠ [].
Proof.
  intros Hrun. destruct Hrun as [|c run Hc _].
  - split; [by intros ?%Exists_nil|done].
  - split; [done|]. intros _. by constructor.
Qed.

Lemma count_of_cons a c l :
  count_of a (c :: l)
  = ((if (c =? a)%N then 1 else 0) + count_of a l)%nat.
Proof. unfold count_of. simpl. by destruct (c =? a). Qed.

Lemma same_length_nil {A B} (l : list A) (k : list B) :
  length l = length k → l ≠ [] ↔ k ≠ [].
Proof. destruct l, k; simpl; try done; intros _; split; done. Qed.

(** The parts after the sign make a numeral exactly when the body has
    at most one full stop, no hyphen and at least one digit. *)
Lemma number_parts_ok body ip fp rest' :
  Forall numch body →
  number_parts uni_decimal body = (ip, fp, rest') →
  (ip ++ fp ≠ [] ∧ rest' = []) ↔
  ((count_of 46 body ≤ 1)%nat ∧ (45 ∉ body) ∧ Exists digit body).
Proof.
  intros Hbody Hparts. unfold number_parts in Hparts.
  destruct (digits_of_spec body) as (run1 & Hb & Hrun1 & Hlen1 & Hstop1).
  destruct (digits_of uni_decimal body) as [ip1 rest1]. simpl in *.
  pose proof (count_of_digits 46 run1 Hrun1 (or_introl eq_refl)) as Hc1.
  pose proof (digits_no_hyphen run1 Hrun1) as Hh1.
  pose proof (digits_Exists run1 Hrun1) as He1.
  pose proof (same_length_nil ip1 run1 Hlen1) as Hn1.
  destruct rest1 as [|c r].
  - injection Hparts as <- <- <-. rewrite app_nil_r in *. subst body.
    rewrite Hc1. split.
    + intros [Hne _]. split; [lia|]. split; [done|]. by apply He1, Hn1.
    + intros (_ & _ & Hex). split; [|done]. by apply Hn1, He1.
  - assert (numch c) as Hc.
    { rewrite Hb in Hbody. apply Forall_app in Hbody as [_ Hcr].
      by apply Forall_cons in Hcr as [? _]. }
    assert (Forall numch r) as Hr.
    { rewrite Hb in Hbody. apply Forall_app in Hbody as [_ Hcr].
      by apply Forall_cons in Hcr as [_ ?]. }
    apply numch_cases in Hc as [Hc|[->| ->]]; [congruence| |].
    + simpl in Hparts.
      destruct (digits_of_spec r) as (run2 & Hr2 & Hrun2 & Hlen2 & Hstop2).
      destruct (digits_of uni_decimal r) as [fp2 rest2]. simpl in *.
      injection Hparts as <- <- <-.
      pose proof (count_of_digits 46 run2 Hrun2 (or_introl eq_refl)) as Hc2.
      pose proof (digits_no_hyphen run2 Hrun2) as Hh2.
      pose proof (digits_Exists run2 Hrun2) as He2.
      pose proof (same_length_nil fp2 run2 Hlen2) as Hn2.
      destruct rest2 as [|c2 r2].
      * rewrite app_nil_r in Hr2. subst r body.
        rewrite count_of_app, count_of_cons, Hc1, Hc2. simpl.
        rewrite Exists_app, Exists_cons, not_elem_of_app, not_elem_of_cons.
        assert (ip1 ++ fp2 ≠ [] ↔ ip1 ≠ [] ∨ fp2 ≠ []) as ->
          by (destruct ip1, fp2; simpl; split; auto; intros [?|?]; done).
        assert (¬ digit 46) as H46 by (intros ?%digit_not_punct; lia).
        rewrite Hn1, Hn2, He1, He2. split.
        -- intros [Hor _]. split; [lia|]. split; [done|].
           destruct Hor; auto.
        -- intros (_ & _ & [?|[?|?]]); [auto|done|auto].
      * assert (numch c2) as Hc2'.
        { rewrite Hr2 in Hr. apply Forall_app in Hr as [_ Hcr].
          by apply Forall_cons in Hcr as [? _]. }
        split; [by intros [_ ?]|]. intros (Hcount & Hhy & _). exfalso.
        subst r body.
        apply numch_cases in Hc2' as [?|[->| ->]]; [congruence| |].
        -- rewrite !count_of_app, !count_of_cons, count_of_app,
             count_of_cons in Hcount. simpl in Hcount. lia.
        -- apply Hhy. rewrite !elem_of_app, !elem_of_cons, elem_of_app,
             elem_of_cons. auto 10.
    + simpl in Hparts. injection Hparts as <- <- <-.
      split; [by intros [_ ?]|]. intros (_ & Hhy & _). exfalso.
      apply Hhy. subst body. rewrite elem_of_app, elem_of_cons. auto.
Qed.

Lemma py_float_signed body :
  (∃ q, py_float uni_decimal (45 :: body) = Ok q) ↔
  ∃ ip fp, number_parts uni_decimal body = (ip, fp, []) ∧ ip ++ fp ≠ [].
Proof.
  unfold py_float, number_parts. simpl.
  destruct (digits_of uni_decimal body) as [ip rest].
  destruct (match rest with
            | [] => _
            | c :: r => _
            end) as [fp rest'].
  destruct (ip ++ fp) as [|d ds] eqn:Hd; destruct rest' as [|c' r'].
  - split; [by intros [? [=]]|].
    intros (? & ? & [= <- <-] & ?). congruence.
  - split; [by intros [? [=]]|]. by intros (? & ? & [=] & _).
  - split; [|eauto]. intros _. exists ip, fp. by rewrite Hd.
  - split; [by intros [? [=]]|]. by intros (? & ? & [=] & _).
Qed.

Lemma py_float_unsigned c s :
  c ≠ 45 → c ≠ 43 →
  (∃ q, py_float uni_decimal (c :: s) = Ok q) ↔
  ∃ ip fp, number_parts uni_decimal (c :: s) = (ip, fp, [])
           ∧ ip ++ fp ≠ [].
Proof.
  intros H45%N.eqb_neq H43%N.eqb_neq.
  unfold py_float, number_parts. rewrite H45, H43.
  destruct (digits_of uni_decimal (c :: s)) as [ip rest].
  destruct (match rest with
            | [] => _
            | c :: r => _
            end) as [fp rest'].
  destruct (ip ++ fp) as [|d ds] eqn:Hd; destruct rest' as [|c' r'].
  - split; [by intros [? [=]]|].
    intros (? & ? & [= <- <-] & ?). congruence.
  - split; [by intros [? [=]]|]. by intros (? & ? & [=] & _).
  - split; [|eauto]. intros _. exists ip, fp. by rewrite Hd.
  - split; [by intros [? [=]]|]. by intros (? & ? & [=] & _).
Qed.

Lemma py_float_only_ValueError s e :
  py_float uni_decimal s = Raise e → e = ValueError.
Proof.
  unfold py_float.
  destruct (match s with
            | [] => _
            | c :: s' => _
            end) as [neg body].
  destruct (digits_of uni_decimal body) as [ip rest].
  destruct (match rest with
            | [] => _
            | c :: r => _
            end) as [fp rest'].
  destruct (ip ++ fp), rest'; by intros [=].
Qed.

Lemma float_Ok_iff s :
  Forall numch s →
  (∃ q, py_float uni_decimal s = Ok q) ↔ well_formed_number uni_decimal s.
Proof.
  intros Hs. unfold well_formed_number. destruct s as [|c s].
  { split; [by intros [? [=]]|]. by intros (_ & _ & ?%Exists_nil). }
  apply Forall_cons in Hs as [Hc Hs]. simpl tail.
  destruct (decide (c = 45)) as [->|H45].
  - rewrite py_float_signed, count_of_cons, Exists_cons. simpl.
    assert (¬ digit 45) by (intros ?%digit_not_punct; lia).
    destruct (number_parts uni_decimal s) as [[ip fp] rest'] eqn:Hp.
    pose proof (number_parts_ok s ip fp rest' Hs Hp) as Hok.
    split.
    + intros (? & ? & [= <- <- ->] & Hne).
      destruct (proj1 Hok (conj Hne eq_refl)) as (? & ? & ?). auto.
    + intros (? & ? & [?|?]); [done|].
      destruct (proj2 Hok) as [? ->]; eauto.
  - assert (c ≠ 43) as H43.
    { intros ->. apply numch_cases in Hc as [?%digit_not_punct|?]; lia. }
    rewrite py_float_unsigned by done.
    assert (Forall numch (c :: s)) as Hcs by by constructor.
    destruct (number_parts uni_decimal (c :: s)) as [[ip fp] rest']
      eqn:Hp.
    pose proof (number_parts_ok (c :: s) ip fp rest' Hcs Hp) as Hok.
    rewrite not_elem_of_cons in Hok. split.
    + intros (? & ? & [= <- <- ->] & Hne).
      destruct (proj1 Hok (conj Hne eq_refl)) as (? & [? ?] & ?). auto.
    + intros (? & ? & ?). destruct (proj2 Hok) as [? ->]; eauto.
Qed.

(** X4. On the strings a capture can hold, [float] returns a number
    exactly for the well-formed numerals (at most one full stop, a
    hyphen only in front, at least one digit) and raises [ValueError]
    on every other one. *)
Theorem float_accepts s :
  Forall numch s →
  ((∃ q, py_float uni_decimal s = Ok q)
   ↔ well_formed_number uni_decimal s)
  ∧ (¬ well_formed_number uni_decimal s →
     py_float uni_decimal s = Raise ValueError).
Proof.
  intros Hs. pose proof (float_Ok_iff s Hs) as Hiff.
  split; [done|]. intros Hwf.
  destruct (py_float uni_decimal s) as [q|e] eqn:Hf.
  - destruct Hwf. apply Hiff. eauto.
  - by rewrite (py_float_only_ValueError s e Hf).
Qed.

End FloatFacts.

(** * Further properties: when the extraction completes and what it
      hands to the display *)

Section ExtractShape.

Variable uni_decimal : N → option N.
Variable uni_alnum : N → bool.

Ltac metric_cases t :=
  rewrite (extract_metrics_eq uni_decimal uni_alnum t) in *;
  destruct (search (corr_re uni_decimal) t) as [gc|] eqn:Hc;
    [destruct (py_float uni_decimal (group1 gc)) as [qc|ec] eqn:Hcf|];
  (destruct (search (elastic_re uni_decimal) t) as [ge|] eqn:He;
    [destruct (py_float uni_decimal (group1 ge)) as [qe|ee] eqn:Hef|]);
  destruct (search (month_re uni_alnum) t) as [gm|] eqn:Hm;
  simpl in *.

Lemma extract_Ok_floats t m :
  extract_metrics uni_decimal uni_alnum t = Ok m →
  (∀ gs, search (corr_re uni_decimal) t = Some gs →
         ∃ q, py_float uni_decimal (group1 gs) = Ok q)
  ∧ (∀ gs, search (elastic_re uni_decimal) t = Some gs →
           ∃ q, py_float uni_decimal (group1 gs) = Ok q).
Proof.
  intros Hx. metric_cases t; try done;
    split; intros gs [= <-] || intros gs [=]; eauto.
Qed.

Lemma extract_floats_Ok t :
  (∀ gs, search (corr_re uni_decimal) t = Some gs →
         ∃ q, py_float uni_decimal (group1 gs) = Ok q) →
  (∀ gs, search (elastic_re uni_decimal) t = Some gs →
         ∃ q, py_float uni_decimal (group1 gs) = Ok q) →
  ∃ m, extract_metrics uni_decimal uni_alnum t = Ok m.
Proof.
  intros Hc' He'. metric_cases t; eauto; exfalso;
    first [ destruct (Hc' _ eq_refl); congruence
          | destruct (He' _ eq_refl); congruence ].
Qed.

Lemma extract_Raise t e :
  extract_metrics uni_decimal uni_alnum t = Raise e →
  (∃ gs, search (corr_re uni_decimal) t = Some gs
         ∧ py_float uni_decimal (group1 gs) = Raise e)
  ∨ (∃ gs, search (elastic_re uni_decimal) t = Some gs
           ∧ py_float uni_decimal (group1 gs) = Raise e).
Proof. intros Hx. metric_cases t; simplify_eq; eauto. Qed.

Lemma extract_lookup t m :
  extract_metrics uni_decimal uni_alnum t = Ok m →
  (∀ v, m !! "correlation" = Some v →
        ∃ gs q, search (corr_re uni_decimal) t = Some gs ∧ v = VFloat q)
  ∧ (∀ v, m !! "elasticity" = Some v →
          ∃ gs q, search (elastic_re uni_decimal) t = Some gs
                  ∧ v = VFloat q)
  ∧ m !! "wettest_month"
    = (λ gs, VStr (group1 gs)) <$> search (month_re uni_alnum) t.
Proof.
  intros Hx. metric_cases t; try done; simplify_eq;
    (split; [|split]); try intros v;
    rewrite ?lookup_insert_eq, ?lookup_insert_ne, ?lookup_insert_eq,
      ?lookup_insert_ne, ?lookup_insert_eq, ?lookup_empty by done;
    try done; intros [= <-]; eauto.
Qed.

Lemma corr_group_numch t gs :
  search (corr_re uni_decimal) t = Some gs →
  Forall (λ c, is_numch uni_decimal c = true) (group1 gs).
Proof.
  rewrite corr_re_eq.
  by intros (? & ? & ? & _ & -> & _ & ? & _)%search_label_run.
Qed.

Lemma elastic_group_numch t gs :
  search (elastic_re uni_decimal) t = Some gs →
  Forall (λ c, is_numch uni_decimal c = true) (group1 gs).
Proof.
  rewrite elastic_re_eq. intros Hs.
  apply search_label_run_lit in Hs as (? & ? & ? & _ & -> & _ & ? & _);
    [done|apply percent_not_numch].
Qed.

(** X5. The extraction returns a map exactly when the captured
    correlation text and the captured elasticity text, if any, are
    well-formed numerals; otherwise it raises, and what it raises is
    always [ValueError]. *)
Theorem extract_completes_iff t :
  ((∃ m, extract_metrics uni_decimal uni_alnum t = Ok m) ↔
   (∀ gs, search (corr_re uni_decimal) t = Some gs →
          well_formed_number uni_decimal (group1 gs))
   ∧ (∀ gs, search (elastic_re uni_decimal) t = Some gs →
            well_formed_number uni_decimal (group1 gs)))
  ∧ (∀ e, extract_metrics uni_decimal uni_alnum t = Raise e →
          e = ValueError).
Proof.
  split; [split|].
  - intros [m [Hc He]%extract_Ok_floats].
    split; intros gs Hgs.
    + apply (float_Ok_iff uni_decimal (group1 gs));
        [by eapply corr_group_numch|by apply Hc].
    + apply (float_Ok_iff uni_decimal (group1 gs));
        [by eapply elastic_group_numch|by apply He].
  - intros [Hc He]. apply extract_floats_Ok; intros gs Hgs.
    + apply (float_Ok_iff uni_decimal (group1 gs));
        [by eapply corr_group_numch|by apply Hc].
    + apply (float_Ok_iff uni_decimal (group1 gs));
        [by eapply elastic_group_numch|by apply He].
  - intros e [(gs & _ & Hf)|(gs & _ & Hf)]%extract_Raise;
      by apply py_float_only_ValueError in Hf.
Qed.

Lemma blank_not_word : is_word uni_alnum 32 = false.
Proof. reflexivity. Qed.

(** X6. What the display receives: the correlation and the elasticity
    shown are always numbers and the month shown is always a non-empty
    string, so the number formats are never applied to a string; a
    month taken from the report is a single run of word characters, so
    the month shown is the fallback ["May 2025"] exactly when the month
    pattern found nothing. *)
Theorem shown_values_typed t m :
  extract_metrics uni_decimal uni_alnum t = Ok m →
  (∃ q, corr_val m = VFloat q)
  ∧ (∃ q, elastic_val m = VFloat q)
  ∧ (∃ s, month_val m = VStr s ∧ s ≠ []
          ∧ (s = lit "May 2025"
             ∨ Forall (λ c, is_word uni_alnum c = true) s))
  ∧ (month_val m = VStr (lit "May 2025")
     ↔ search (month_re uni_alnum) t = None).
Proof.
  intros Hx. destruct (extract_lookup t m Hx) as (Hc & He & Hmo).
  unfold corr_val, elastic_val, month_val. rewrite Hmo.
  split; [|split].
  - destruct (m !! "correlation") as [v|]; simpl; [|eauto].
    destruct (Hc v eq_refl) as (? & ? & _ & ->). eauto.
  - destruct (m !! "elasticity") as [v|]; simpl; [|eauto].
    destruct (He v eq_refl) as (? & ? & _ & ->). eauto.
  - destruct (search (month_re uni_alnum) t) as [gs|] eqn:Hs; simpl.
    + rewrite month_re_eq in Hs.
      apply search_label_run in Hs as (? & g & ? & _ & -> & Hne & Hg & _).
      simpl. split; [eauto|]. split; [|done]. intros [= ->].
      rewrite Forall_forall in Hg.
      assert (is_word uni_alnum 32 = true) as Hb
        by (apply Hg; vm_compute; set_solver).
      by rewrite blank_not_word in Hb.
    + split; [|done]. exists (lit "May 2025"). split; [done|].
      split; [done|by left].
Qed.

End ExtractShape.

(** * Further properties: what a text-mode read returns *)

Lemma universal_newlines_props (P : N → Prop) s :
  (13 ∉ universal_newlines s)
  ∧ (length (universal_newlines s) ≤ length s)%nat
  ∧ (P 10 → Forall P s → Forall P (universal_newlines s)).
Proof.
  remember (length s) as n eqn:Hn. revert s Hn.
  induction n as [n IH] using lt_wf_ind. intros s ->.
  destruct s as [|c s]; [simpl; split; [set_solver|split; [lia|done]]|].
  cbn [universal_newlines].
  destruct (N.eqb_spec c 13) as [->|Hc].
  - destruct s as [|d s]; [|destruct (N.eqb_spec d 10) as [->|Hd]].
    + simpl. split; [|split; [lia|by repeat constructor]].
      intros [?|?%elem_of_nil]%elem_of_cons; done.
    + destruct (IH (length s) ltac:(simpl; lia) s eq_refl)
        as (Hcr & Hlen & Hall).
      split; [|split].
      * intros [?|?]%elem_of_cons; done.
      * simpl. lia.
      * intros H10 Hs. apply Forall_cons_1 in Hs as [_ Hs].
        apply Forall_cons_1 in Hs as [_ Hs].
        constructor; [done|]. by apply Hall.
    + destruct (IH (length (d :: s)) ltac:(simpl; lia) (d :: s) eq_refl)
        as (Hcr & Hlen & Hall).
      split; [|split].
      * intros [?|?]%elem_of_cons; done.
      * simpl in *. lia.
      * intros H10 [_ Hs]%Forall_cons_1. constructor; [done|]. by apply Hall.
  - destruct (IH (length s) ltac:(simpl; lia) s eq_refl)
      as (Hcr & Hlen & Hall).
    split; [|split].
    * intros [?|?]%elem_of_cons; done.
    * simpl. lia.
    * intros H10 [? Hs]%Forall_cons_1. constructor; [done|]. by apply Hall.
Qed.

(** A strict decode only yields scalar values, at most one per byte. *)
Lemma utf8_decode_scalar bs t :
  utf8_decode bs = Some t →
  Forall scalar t ∧ (length t ≤ length bs)%nat.
Proof.
  remember (length bs) as n eqn:Hn. revert bs t Hn.
  induction n as [n IH] using lt_wf_ind. intros bs t Hn Hd.
  destruct bs as [|c0 r0]; [simplify_eq/=; split; [constructor|lia]|].
  cbn [utf8_decode] in Hd. unfold is_cont in Hd.
  repeat case_match; try discriminate; subst;
    apply fmap_Some in Hd as (t' & Hd & ->);
    match type of Hd with
    | utf8_decode ?r = _ =>
        destruct (IH (length r) ltac:(simpl; lia) r t' eq_refl Hd)
          as [Hsc Hlen]
    end;
    n_bools; try (exfalso; lia);
    (split; [constructor; [unfold scalar; lia|done]|simpl in *; lia]).
Qed.

Lemma latin1_decode_scalar bs : Forall scalar (latin1_decode bs).
Proof.
  unfold latin1_decode. apply Forall_fmap, Forall_forall. intros b _.
  pose proof (Byte.to_N_bounded b). unfold scalar. simpl. lia.
Qed.

Lemma byte_of_value n : n < 256 → ∃ b, Byte.to_N b = n.
Proof.
  intros Hn. destruct (Byte.of_N n) as [b|] eqn:Hb.
  - exists b. by apply Byte.to_of_N.
  - apply Byte.of_N_None_iff in Hb. lia.
Qed.

Ltac n_bools_neg :=
  n_bools;
  repeat (match goal with
          | H : negb _ = false |- _ => apply negb_false_iff in H
          end; n_bools).

Lemma encode_2_facts c b0 b1 :
  128 ≤ c < 2048 → b0 = 192 + c / 64 → b1 = 128 + c mod 64 →
  194 ≤ b0 ≤ 223 ∧ 128 ≤ b1 ≤ 191 ∧ (b0 - 192) * 64 + (b1 - 128) = c.
Proof. intros Hc -> ->. repeat split; zify; divmod_lia. Qed.

Lemma encode_3_facts c b0 b1 b2 :
  2048 ≤ c < 65536 → ¬ (55296 ≤ c ≤ 57343) →
  b0 = 224 + c / 4096 → b1 = 128 + (c / 64) mod 64 →
  b2 = 128 + c mod 64 →
  224 ≤ b0 ≤ 239 ∧ 128 ≤ b1 ≤ 191 ∧ 128 ≤ b2 ≤ 191
  ∧ ¬ (b0 = 224 ∧ b1 < 160) ∧ ¬ (b0 = 237 ∧ 160 ≤ b1)
  ∧ (b0 - 224) * 4096 + (b1 - 128) * 64 + (b2 - 128) = c.
Proof.
  intros Hc Hs -> -> ->. repeat split; try (zify; divmod_lia).
  all: intros [? ?]; zify; divmod_lia.
Qed.

Lemma encode_4_facts c b0 b1 b2 b3 :
  65536 ≤ c < 1114112 →
  b0 = 240 + c / 262144 → b1 = 128 + (c / 4096) mod 64 →
  b2 = 128 + (c / 64) mod 64 → b3 = 128 + c mod 64 →
  240 ≤ b0 ≤ 244 ∧ 128 ≤ b1 ≤ 191 ∧ 128 ≤ b2 ≤ 191 ∧ 128 ≤ b3 ≤ 191
  ∧ ¬ (b0 = 240 ∧ b1 < 144) ∧ ¬ (b0 = 244 ∧ 144 ≤ b1)
  ∧ (b0 - 240) * 262144 + (b1 - 128) * 4096
    + (b2 - 128) * 64 + (b3 - 128) = c.
Proof.
  intros Hc -> -> -> ->. repeat split; try (zify; divmod_lia).
  all: intros [? ?]; zify; divmod_lia.
Qed.

Ltac decode_char_case Hval :=
  cbn [app utf8_decode]; unfold is_cont; rewrite Hval;
  repeat case_match; n_bools_neg; try (exfalso; lia); reflexivity.

(** Decoding the encoding of one scalar value gives the value back. *)
Lemma utf8_decode_char c bs1 bs2 :
  scalar c →
  Byte.to_N <$> bs1 = utf8_encode_char c →
  utf8_decode (bs1 ++ bs2) = cons c <$> utf8_decode bs2.
Proof.
  intros [Hmax Hsur] Henc. unfold utf8_encode_char in Henc.
  destruct (N.ltb_spec c 128) as [L1|L1];
    [|destruct (N.ltb_spec c 2048) as [L2|L2];
      [|destruct (N.ltb_spec c 65536) as [L3|L3]]].
  - destruct bs1 as [|b0 [|? ?]]; try discriminate.
    injection Henc as E0. decode_char_case E0.
  - destruct bs1 as [|b0 [|b1 [|? ?]]]; try discriminate.
    injection Henc as E0 E1.
    destruct (encode_2_facts c _ _ (conj L1 L2) E0 E1) as (? & ? & Hval).
    clear E0 E1. decode_char_case Hval.
  - destruct bs1 as [|b0 [|b1 [|b2 [|? ?]]]]; try discriminate.
    injection Henc as E0 E1 E2.
    destruct (encode_3_facts c _ _ _ (conj L2 L3) Hsur E0 E1 E2)
      as (? & ? & ? & ? & ? & Hval).
    clear E0 E1 E2. decode_char_case Hval.
  - destruct bs1 as [|b0 [|b1 [|b2 [|b3 [|? ?]]]]]; try discriminate.
    injection Henc as E0 E1 E2 E3.
    destruct (encode_4_facts c _ _ _ _ (conj L3 Hmax) E0 E1 E2 E3)
      as (? & ? & ? & ? & ? & ? & Hval).
    clear E0 E1 E2 E3. decode_char_case Hval.
Qed.

Lemma utf8_decode_encode t bs :
  Forall scalar t →
  Byte.to_N <$> bs = utf8_encode t →
  utf8_decode bs = Some t.
Proof.
  intros Ht. revert bs. induction Ht as [|c t Hc _ IH]; intros bs Henc.
  - by apply fmap_nil_inv in Henc as ->.
  - rewrite utf8_encode_cons in Henc.
    apply fmap_app_inv in Henc as (bs1 & bs2 & H1 & H2 & ->).
    by rewrite (utf8_decode_char c bs1 bs2 Hc (eq_sym H1)),
      (IH bs2 (eq_sym H2)).
Qed.

Lemma encode_char_bounded c :
  scalar c → Forall (λ n, n < 256) (utf8_encode_char c).
Proof.
  intros [Hmax _]. unfold utf8_encode_char.
  repeat case_match; n_bools; repeat constructor; zify; divmod_lia.
Qed.

Lemma utf8_encode_bytes t :
  Forall scalar t → ∃ bs, Byte.to_N <$> bs = utf8_encode t.
Proof.
  assert (∀ ns, Forall (λ n, n < 256) ns → ∃ bs, Byte.to_N <$> bs = ns)
    as Hbytes.
  { intros ns Hns. induction Hns as [|n ns Hn _ [bs <-]]; [by exists []|].
    destruct (byte_of_value n Hn) as [b <-]. by exists (b :: bs). }
  intros Ht. apply Hbytes. induction Ht as [|c t Hc _ IH]; [constructor|].
  rewrite utf8_encode_cons. apply Forall_app. split; [|done].
  by apply encode_char_bounded.
Qed.

Section ReadFacts.

Variable exn_str : exn → string.

Lemma safe_read_text_cases w p :
  safe_read_text exn_str p w
  = (w, match files w !! p with
        | None => Raise FileNotFoundError
        | Some Directory => Raise IsADirectoryError
        | Some (File bs) =>
            Ok (universal_newlines
                  (default (latin1_decode bs) (utf8_decode bs)))
        end).
Proof.
  destruct (files w !! p) as [[bs|]|] eqn:Hf.
  - by apply safe_read_text_regular.
  - unfold safe_read_text, try_except, open_read. by rewrite Hf.
  - unfold safe_read_text, try_except, open_read. by rewrite Hf.
Qed.

Lemma read_report_cases w p :
  read_report p w
  = (w, match files w !! p with
        | None => Ok []
        | Some Directory => Raise IsADirectoryError
        | Some (File bs) =>
            Ok (universal_newlines
                  (default (latin1_decode bs) (utf8_decode bs)))
        end).
Proof.
  unfold read_report, mbind, M_bind, path_exists, try_except, open_read.
  destruct (files w !! p) as [[bs|]|] eqn:Hf; simpl; rewrite ?Hf; try done.
  simpl. destruct (utf8_decode bs); simpl; by rewrite ?Hf.
Qed.

Lemma decoded_text_shape bs :
  let t := universal_newlines (default (latin1_decode bs) (utf8_decode bs)) in
  (13 ∉ t) ∧ Forall scalar t ∧ (length t ≤ length bs)%nat.
Proof.
  intros t.
  destruct (universal_newlines_props scalar
              (default (latin1_decode bs) (utf8_decode bs)))
    as (Hcr & Hlen & Hall).
  assert (scalar 10) as H10 by (unfold scalar; lia).
  split; [done|]. fold t in Hlen.
  destruct (utf8_decode bs) as [u|] eqn:Hd; simpl in *.
  - destruct (utf8_decode_scalar bs u Hd) as [Hu Hlu].
    split; [by apply Hall|lia].
  - split; [apply Hall; [done|apply latin1_decode_scalar]|].
    unfold latin1_decode in Hlen. rewrite length_fmap in Hlen. done.
Qed.

(** X7. [safe_read_text] never leaves a trace: in every state it hands
    the state back unchanged, so its warning is never shown; it returns
    a text only for a regular file, and on a directory the open error
    [IsADirectoryError] propagates like the one of a missing file. *)
Theorem safe_read_text_frame w p :
  (safe_read_text exn_str p w).1 = w
  ∧ (files w !! p = Some Directory →
     (safe_read_text exn_str p w).2 = Raise IsADirectoryError)
  ∧ (∀ t, (safe_read_text exn_str p w).2 = Ok t →
          ∃ bs, files w !! p = Some (File bs)).
Proof.
  rewrite safe_read_text_cases. simpl. split; [done|]. split.
  - by intros ->.
  - intros t. destruct (files w !! p) as [[bs|]|]; try done. eauto.
Qed.

(** X8. Whatever [safe_read_text] returns holds no carriage return,
    only Unicode scalar values (no surrogate), and at most as many
    characters as the file has bytes. *)
Theorem read_text_shape w p t :
  (safe_read_text exn_str p w).2 = Ok t →
  (13 ∉ t) ∧ Forall scalar t
  ∧ ∃ bs, files w !! p = Some (File bs) ∧ (length t ≤ length bs)%nat.
Proof.
  rewrite safe_read_text_cases. simpl.
  destruct (files w !! p) as [[bs|]|]; try done. intros [= <-].
  destruct (decoded_text_shape bs) as (? & ? & ?). eauto 10.
Qed.

(** X9. Write then read: every text of scalar values without carriage
    return has a UTF-8 encoding as bytes, and a file holding these
    bytes is read back as exactly that text, on the first attempt. *)
Theorem written_text_read_back t :
  Forall scalar t → 13 ∉ t →
  ∃ bs, Byte.to_N <$> bs = utf8_encode t
        ∧ utf8_decode bs = Some t
        ∧ ∀ w p, files w !! p = Some (File bs) →
                 safe_read_text exn_str p w = (w, Ok t).
Proof.
  intros Ht Hcr. destruct (utf8_encode_bytes t Ht) as [bs Hbs].
  pose proof (utf8_decode_encode t bs Ht Hbs) as Hd.
  exists bs. repeat split; try done. intros w p Hf.
  rewrite safe_read_text_cases, Hf, Hd. simpl.
  by rewrite universal_newlines_id.
Qed.

(** X10. The reads written out in the tabs agree with
    [safe_read_text] on every path that exists, regular file or
    directory, and differ on a missing path only: there they give the
    empty text, silently, where [safe_read_text] raises. *)
Theorem read_report_vs_safe_read_text w p :
  (is_Some (files w !! p) →
   read_report p w = safe_read_text exn_str p w)
  ∧ (files w !! p = None →
     read_report p w = (w, Ok [])
     ∧ safe_read_text exn_str p w = (w, Raise FileNotFoundError)).
Proof.
  rewrite read_report_cases, safe_read_text_cases. split.
  - intros [[bs|] ->]; done.
  - by intros ->.
Qed.

End ReadFacts.

Section WeatherFacts.

Variable uni_decimal : N → option N.
Variable uni_alnum : N → bool.

Lemma weather_values_cases w p :
  weather_values uni_decimal uni_alnum p w
  = (w, rain_report ← (read_report p w).2;
        rain_metrics ← extract_metrics uni_decimal uni_alnum rain_report;
        Ok (corr_val rain_metrics, elastic_val rain_metrics,
            month_val rain_metrics)).
Proof.
  unfold weather_values, mbind at 1 2, M_bind.
  rewrite read_report_cases. simpl.
  destruct (files w !! p) as [[bs|]|]; simpl; try done;
    rewrite extract_step_eq; by destruct (extract_metrics _ _ _).
Qed.

(** X11. With the report missing, or present and empty, the weather tab
    shows its three hard-coded figures: nothing is raised and nothing
    is added to the page to say that the figures are fallbacks. *)
Theorem weather_defaults w p :
  files w !! p = None ∨ files w !! p = Some (File []) →
  weather_values uni_decimal uni_alnum p w
  = (w, Ok (VFloat (dec 41 3), VFloat (dec (-40) 2),
            VStr (lit "May 2025"))).
Proof.
  intros Hf. rewrite weather_values_cases, read_report_cases.
  by destruct Hf as [-> | ->].
Qed.

(** X12. Computing the weather figures never changes the state and can
    fail in two ways only: [IsADirectoryError] when the report path is a
    directory, [ValueError] when the report is a regular file with a
    malformed number. *)
Theorem weather_values_errors w p :
  (weather_values uni_decimal uni_alnum p w).1 = w
  ∧ ∀ e, (weather_values uni_decimal uni_alnum p w).2 = Raise e →
         (e = IsADirectoryError ∧ files w !! p = Some Directory)
         ∨ (e = ValueError ∧ ∃ bs, files w !! p = Some (File bs)).
Proof.
  rewrite weather_values_cases, read_report_cases. simpl.
  split; [done|]. intros e.
  destruct (files w !! p) as [[bs|]|]; simpl.
  - destruct (extract_metrics _ _ _) as [m|e'] eqn:Hx; simpl; [done|].
    intros [= <-]. right. split; [|eauto].
    apply extract_Raise in Hx as [(gs & _ & Hf)|(gs & _ & Hf)];
      by apply py_float_only_ValueError in Hf.
  - intros [= <-]. by left.
  - done.
Qed.

End WeatherFacts.

(** * Further properties: loading and showing images *)

Section ImageFacts.

Variable exn_str : exn → string.
Variable identifiable : list byte → bool.
Variable loadable : list byte → bool.

Abbreviation available := (image_available identifiable loadable).
Abbreviation fails := (load_fails identifiable loadable).

Lemma load_image_body_eq w p :
  load_image_body exn_str identifiable p w
  = match files w !! p with
    | Some (File bs) =>
        if identifiable bs then (w, Ok (Some bs))
        else (World (files w) (image_cache w)
                (page w ++ [Warning ("Error loading image " +:+ p +:+ ": "
                                       +:+ exn_str UnidentifiedImageError)]),
              Ok None)
    | Some Directory =>
        (World (files w) (image_cache w)
           (page w ++ [Warning ("Error loading image " +:+ p +:+ ": "
                                  +:+ exn_str IsADirectoryError)]),
         Ok None)
    | None =>
        (World (files w) (image_cache w)
           (page w ++ [Warning ("Image not found: " +:+ p)]),
         Ok None)
    end.
Proof.
  destruct w as [fs c pg].
  unfold load_image_body, try_except, mbind, M_bind, path_exists,
    fmap, M_fmap, image_open. simpl.
  destruct (fs !! p) as [[bs|]|] eqn:Hf; simpl; rewrite ?Hf; simpl;
    try destruct (identifiable bs); done.
Qed.

(** One call of [load_image], whatever the state: the pickling fails
    and the state is as before, or the call returns. *)
Lemma load_image_outcome w p :
  (fails w p = true
   ∧ image_cache w !! p = None
   ∧ load_image exn_str identifiable loadable p w = (w, Raise OSError))
  ∨ (fails w p = false
     ∧ ∃ v es,
         load_image exn_str identifiable loadable p w
         = (World (files w)
              (match image_cache w !! p with
               | Some _ => image_cache w
               | None => <[p := CacheEntry v es]> (image_cache w)
               end)
              (page w ++ es),
            Ok v)
         ∧ (∀ en, image_cache w !! p = Some en → en = CacheEntry v es)
         ∧ (is_Some v ↔ available w p = true)
         ∧ (cache_ok w → entry_ok (CacheEntry v es))).
Proof.
  unfold image_available, load_fails.
  destruct (image_cache w !! p) as [en|] eqn:Hc.
  - right. split; [done|]. exists (cached_value en), (replay en).
    rewrite (load_image_hit exn_str identifiable loadable w p en Hc).
    rewrite bool_decide_eq_true. repeat split; try done.
    + intros ? [= <-]. by destruct en.
    + intros Hok. specialize (Hok p en Hc). by destruct en.
  - unfold load_image, cache_data. rewrite Hc, load_image_body_eq.
    destruct (files w !! p) as [[bs|]|];
      [destruct (identifiable bs);
         [destruct (loadable bs) eqn:Hl|]| |];
      simpl; rewrite ?Hl; simpl; rewrite ?drop_all, ?drop_app_length.
    + right. split; [done|]. exists (Some bs), []. rewrite app_nil_r.
      destruct w. repeat split; try done.
    + left. done.
    + right. split; [done|]. eexists None, _. repeat split; try done;
        try (by intros [? [=]]);
        intros _; unfold entry_ok; simpl; eauto.
    + right. split; [done|]. eexists None, _. repeat split; try done;
        try (by intros [? [=]]);
        intros _; unfold entry_ok; simpl; eauto.
    + right. split; [done|]. eexists None, _. repeat split; try done;
        try (by intros [? [=]]);
        intros _; unfold entry_ok; simpl; eauto.
Qed.

(** X13. [load_image] never touches the files and only adds to the
    cache, never replacing an entry. It raises in one case only, with
    [OSError] from the pickling of the result: nothing is cached for
    the path and the file is a recognised image whose data does not
    load; the state is then as before. Otherwise it returns, having
    only appended to the page; the cache then holds for the path exactly
    the value just returned and the elements just emitted; and the
    value is an image exactly when one is available (cached, or a
    recognised and loadable file with nothing cached). *)
Theorem load_image_effects w p :
  ∃ w' r,
    load_image exn_str identifiable loadable p w = (w', r)
    ∧ files w' = files w
    ∧ image_cache w ⊆ image_cache w'
    ∧ match r with
      | Ok v =>
          load_fails identifiable loadable w p = false
          ∧ (is_Some v ↔ image_available identifiable loadable w p = true)
          ∧ ∃ es, page w' = page w ++ es
                  ∧ image_cache w' !! p = Some (CacheEntry v es)
      | Raise e =>
          e = OSError ∧ w' = w
          ∧ load_fails identifiable loadable w p = true
      end.
Proof.
  destruct (load_image_outcome w p)
    as [(Hfail & Hc & ->)|(Hfail & v & es & -> & Hen & Hav & _)].
  { by eexists _, _. }
  eexists _, (Ok v). split; [done|]. simpl. repeat split; try apply Hav.
  - destruct (image_cache w !! p) eqn:Hc; [done|].
    by apply insert_subseteq.
  - done.
  - exists es. split; [done|].
    destruct (image_cache w !! p) as [en|] eqn:Hc.
    + by rewrite Hc, (Hen en eq_refl).
    + by rewrite lookup_insert_eq.
Qed.


Lemma display_plot_eq w p title description :
  display_plot exn_str identifiable loadable p title description w
  = let w2 := World (files w) (image_cache w)
                (page w ++ [Heading title]
                 ++ (if decide (description = EmptyString) then []
                     else [Caption description])) in
    match load_image exn_str identifiable loadable p w2 with
    | (w3, Ok (Some i)) =>
        (World (files w3) (image_cache w3) (page w3 ++ [Picture i]),
         Ok true)
    | (w3, Ok None) =>
        (World (files w3) (image_cache w3)
           (page w3 ++ [Error ("Could not load: " +:+ title)]),
         Ok false)
    | (w3, Raise e) => (w3, Raise e)
    end.
Proof.
  unfold display_plot, mbind, M_bind, emit.
  destruct (decide (description = EmptyString)); simpl;
    rewrite <- ?(assoc_L (++)); simpl;
    by destruct (load_image _ _ _ _ _) as [? [[?|]|?]].
Qed.

(** X15. [display_plot] never touches the files and always shows the
    heading first, then the description if there is one. When the
    pickling of a freshly opened image fails, [OSError] leaves
    [display_plot] with nothing more on the page. Otherwise
    [display_plot] returns, [True] exactly when an image is available,
    and the page ends with the picture when the result is [True], with
    the error notice naming the title when it is [False]. *)
Theorem display_plot_outcome w p title description :
  let shown := [Heading title]
               ++ (if decide (description = EmptyString) then []
                   else [Caption description]) in
  if load_fails identifiable loadable w p
  then
    display_plot exn_str identifiable loadable p title description w
    = (World (files w) (image_cache w) (page w ++ shown), Raise OSError)
  else
    ∃ w' es final,
      display_plot exn_str identifiable loadable p title description w
      = (w', Ok (image_available identifiable loadable w p))
      ∧ files w' = files w
      ∧ page w' = page w ++ shown ++ es ++ [final]
      ∧ if image_available identifiable loadable w p
        then ∃ img, final = Picture img
        else final = Error ("Could not load: " +:+ title).
Proof.
  rewrite display_plot_eq. cbv zeta.
  match goal with
  | |- context [load_image _ _ _ p ?w2] =>
      destruct (load_image_outcome w2 p)
        as [(Hfail & _ & ->)|(Hfail & v & es & -> & _ & Hav & _)]
  end;
    change (load_fails identifiable loadable _ p)
      with (load_fails identifiable loadable w p) in Hfail;
    rewrite Hfail; [done|].
  change (image_available identifiable loadable _ p)
    with (image_available identifiable loadable w p) in Hav.
  destruct v as [img|].
  - rewrite (proj1 Hav) by eauto. eexists _, es, _.
    split; [done|]. simpl. rewrite <- !(assoc_L (++)). eauto.
  - destruct (image_available identifiable loadable w p).
    { destruct (proj2 Hav eq_refl) as [? [=]]. }
    eexists _, es, _. split; [done|]. simpl.
    by rewrite <- !(assoc_L (++)).
Qed.

(** X16. In a state whose cache is well formed, [display_plot] shows a
    warning exactly when it returns [False], and then one: none when it
    returns [True], none when the load raises. *)
Theorem display_plot_warns_iff w p title description :
  cache_ok w →
  count_warnings
    (drop (length (page w))
       (page (display_plot exn_str identifiable loadable p title
                description w).1))
  = match (display_plot exn_str identifiable loadable p title
             description w).2 with
    | Ok false => 1%nat
    | _ => 0%nat
    end.
Proof.
  intros Hok. rewrite display_plot_eq. cbv zeta.
  match goal with
  | |- context [load_image _ _ _ p ?w2] =>
      destruct (load_image_outcome w2 p)
        as [(_ & _ & ->)|(_ & v & es & -> & _ & _ & Hen)]
  end.
  { simpl. rewrite drop_app_length.
    by destruct (decide (description = EmptyString)). }
  specialize (Hen Hok). unfold entry_ok in Hen. simpl in Hen.
  destruct v as [img|].
  - subst es. simpl.
    rewrite <- !(assoc_L (++)), drop_app_length.
    by destruct (decide (description = EmptyString)).
  - destruct Hen as [msg ->]. simpl.
    rewrite <- !(assoc_L (++)), drop_app_length.
    by destruct (decide (description = EmptyString)).
Qed.

(** X17. The cache stays well formed: it is so when empty, and
    [load_image] and [display_plot] keep it so; every stored result is
    an image with no element, or no image with exactly one warning. *)
Theorem cache_stays_ok w p title description :
  (∀ fs pg, cache_ok (World fs ∅ pg))
  ∧ (cache_ok w →
     cache_ok (load_image exn_str identifiable loadable p w).1
     ∧ cache_ok
         (display_plot exn_str identifiable loadable p title
            description w).1).
Proof.
  split; [apply cache_ok_empty|]. intros Hok.
  split; [by apply load_image_cache_ok|by apply display_plot_cache_ok].
Qed.

End ImageFacts.

(** * Further properties: the download section *)

Lemma has_slash_app a b : has_slash (a +:+ b) = has_slash a || has_slash b.
Proof.
  induction a as [|c a IH]; [done|]. simpl. by rewrite IH, orb_assoc.
Qed.

Lemma path_name_join directory name :
  has_slash name = false → path_name (path_join directory name) = name.
Proof.
  intros Hname. unfold path_join.
  induction directory as [|c d IH]; simpl.
  - change (String.app EmptyString name) with name. by rewrite Hname.
  - rewrite !has_slash_app. simpl. by rewrite orb_true_r.
Qed.

Lemma download_loop_ok fs reports sidebar :
  (∀ r, r ∈ reports → ¬ is_directory fs r.1) →
  download_loop fs reports sidebar
  = (sidebar ++ (report_element fs <$> reports), Ok ()).
Proof.
  revert sidebar. induction reports as [|[path label] rest IH];
    intros sidebar Hdirs; simpl; [by rewrite app_nil_r|].
  assert (¬ is_directory fs path) as Hpath
    by (apply (Hdirs (path, label)); by left).
  assert (∀ r, r ∈ rest → ¬ is_directory fs r.1) as Hrest
    by (intros r Hr; apply Hdirs; by right).
  unfold create_download_button, open_rb, report_element, is_directory in *.
  simpl. destruct (fs !! path) as [[bs|]|] eqn:Hf; simpl.
  - rewrite IH by done. by rewrite <- (assoc_L (++)).
  - done.
  - rewrite IH by done. by rewrite <- (assoc_L (++)).
Qed.

Lemma download_loop_directory fs before r after sidebar :
  (∀ r', r' ∈ before → ¬ is_directory fs r'.1) →
  is_directory fs r.1 →
  download_loop fs (before ++ r :: after) sidebar
  = (sidebar ++ (report_element fs <$> before), Raise IsADirectoryError).
Proof.
  revert sidebar. induction before as [|[path label] rest IH];
    intros sidebar Hdirs Hr; simpl.
  - destruct r as [path label]. unfold is_directory in Hr. simpl in Hr.
    unfold create_download_button, open_rb. rewrite Hr. simpl.
    by rewrite app_nil_r.
  - assert (¬ is_directory fs path) as Hpath
      by (apply (Hdirs (path, label)); by left).
    assert (∀ r', r' ∈ rest → ¬ is_directory fs r'.1) as Hrest
      by (intros r' Hr'; apply Hdirs; by right).
    unfold create_download_button, open_rb, report_element,
      is_directory in *.
    simpl. destruct (fs !! path) as [[bs|]|] eqn:Hf; simpl.
    + rewrite IH by done. by rewrite <- (assoc_L (++)).
    + done.
    + rewrite IH by done. by rewrite <- (assoc_L (++)).
Qed.

(** X18. When none of the three report paths is a directory, the
    download section never raises and adds exactly one element per
    report, in the order of the list: a download button that carries
    the bytes of the file unchanged when the report is there, a
    "Report not found" warning when it is not.  The file names offered
    and named are the bare names, whatever the directory. *)
Theorem download_section_elements fs visualizations_dir sidebar :
  (∀ r, r ∈ reports visualizations_dir → ¬ is_directory fs r.1) →
  download_loop fs (reports visualizations_dir) sidebar
  = (sidebar ++ (report_element fs <$> reports visualizations_dir), Ok ())
  ∧ (λ r, path_name r.1) <$> reports visualizations_dir
    = [ "congestion_velocity_summary.txt";
        "tip_crowding_analysis_summary.txt";
        "rain_tax_academic_report.txt" ].
Proof.
  intros Hdirs. split; [by apply download_loop_ok|].
  unfold reports. simpl. by rewrite !path_name_join.
Qed.

(** X19. When a report path is a directory, opening it for the button
    raises [IsADirectoryError]: the section stops there, having shown
    the elements of the reports before it and none of the later
    ones. *)
Theorem download_section_directory fs visualizations_dir before r after
    sidebar :
  reports visualizations_dir = before ++ r :: after →
  (∀ r', r' ∈ before → ¬ is_directory fs r'.1) →
  is_directory fs r.1 →
  download_loop fs (reports visualizations_dir) sidebar
  = (sidebar ++ (report_element fs <$> before), Raise IsADirectoryError).
Proof. intros ->. apply download_loop_directory. Qed.

(** * Further properties on concrete inputs *)

(** X4 on the elasticity of the sample report. *)
Lemma float_accepts_witness :
  Forall (λ c, is_numch no_decimal c = true) (lit "-0.40")
  ∧ well_formed_number no_decimal (lit "-0.40").
Proof.
  assert (Forall (λ c, is_numch no_decimal c = true) (lit "-0.40")) as Hs
    by (repeat constructor).
  split; [exact Hs|].
  apply (float_accepts no_decimal (lit "-0.40") Hs).
  eexists. vm_compute. reflexivity.
Defined.

(** X6 on the sample report. *)
Lemma shown_values_typed_witness :
  let m : gmap string value :=
    {[ "correlation" := VFloat (dec 41 3);
       "elasticity" := VFloat (dec (-40) 2);
       "wettest_month" := VStr (lit "May") ]} in
  extract_metrics no_decimal no_alnum sample_report = Ok m
  ∧ (∃ q, corr_val m = VFloat q)
  ∧ (∃ q, elastic_val m = VFloat q).
Proof.
  intros m.
  assert (extract_metrics no_decimal no_alnum sample_report = Ok m) as Hm
    by (vm_compute; reflexivity).
  split; [exact Hm|].
  destruct (shown_values_typed no_decimal no_alnum sample_report m Hm)
    as (Hc & He & _).
  split; [exact Hc|exact He].
Defined.

(** X8 on a file with a Windows line ending. *)
Lemma read_text_shape_witness :
  let w := World {[ "report.txt" := File [x61; x0d; x0a] ]} ∅ [] in
  (safe_read_text (λ _, "error") "report.txt" w).2 = Ok [97; 10]
  ∧ 13 ∉ [97; 10].
Proof.
  intros w.
  assert ((safe_read_text (λ _, "error") "report.txt" w).2 = Ok [97; 10])
    as Hr by reflexivity.
  split; [exact Hr|].
  exact (proj1 (read_text_shape (λ _, "error") w "report.txt" [97; 10] Hr)).
Defined.

(** X9 on a text with a non-ASCII letter. *)
Lemma written_text_read_back_witness :
  Forall scalar [233; 10]
  ∧ ∃ bs, Byte.to_N <$> bs = utf8_encode [233; 10]
          ∧ utf8_decode bs = Some [233; 10]
          ∧ ∀ w p, files w !! p = Some (File bs) →
                   safe_read_text (λ _, "error") p w = (w, Ok [233; 10]).
Proof.
  assert (Forall scalar [233; 10]) as Ht
    by (repeat constructor; unfold scalar; lia).
  split; [exact Ht|].
  apply (written_text_read_back (λ _, "error") [233; 10] Ht).
  intros [H|H]%elem_of_cons; [discriminate|].
  apply elem_of_cons in H as [H|H]; [discriminate|].
  by apply elem_of_nil in H.
Defined.

(** X11 on a world without files. *)
Lemma weather_defaults_witness :
  let w := World ∅ ∅ [] in
  files w !! "rain_tax_academic_report.txt" = None
  ∧ weather_values no_decimal no_alnum "rain_tax_academic_report.txt" w
    = (w, Ok (VFloat (dec 41 3), VFloat (dec (-40) 2),
              VStr (lit "May 2025"))).
Proof.
  split; [reflexivity|].
  apply (weather_defaults no_decimal no_alnum (World ∅ ∅ [])
           "rain_tax_academic_report.txt").
  left. reflexivity.
Defined.


(** X16 on the first render of a process, with no file on disk. *)
Lemma display_plot_warns_iff_witness :
  let w := World ∅ ∅ [] in
  cache_ok w
  ∧ count_warnings
      (drop (length (page w))
         (page (display_plot (λ _, "error") (λ _, true) (λ _, true)
                  "plot.png" "Rain" "Trend" w).1))
    = 1%nat.
Proof.
  intros w.
  assert (cache_ok w) as Hok by apply map_Forall_empty.
  split; [exact Hok|].
  rewrite (display_plot_warns_iff (λ _, "error") (λ _, true) (λ _, true)
             w "plot.png" "Rain" "Trend" Hok).
  reflexivity.
Defined.

(** X18 on an empty output directory: three warnings. *)
Lemma download_section_elements_witness :
  download_loop ∅ (reports "outputs") []
  = ([ ReportWarning "Report not found: congestion_velocity_summary.txt";
       ReportWarning "Report not found: tip_crowding_analysis_summary.txt";
       ReportWarning "Report not found: rain_tax_academic_report.txt" ],
     Ok ()).
Proof.
  refine (proj1 (download_section_elements ∅ "outputs" [] _)).
  intros r _ Hr. unfold is_directory in Hr.
  rewrite lookup_empty in Hr. discriminate.
Defined.

(** X19 with a directory in the place of the first report. *)
Lemma download_section_directory_witness :
  let fs : gmap string node :=
    {[ "outputs/congestion_velocity_summary.txt" := Directory ]} in
  is_directory fs "outputs/congestion_velocity_summary.txt"
  ∧ download_loop fs (reports "outputs") []
    = ([], Raise IsADirectoryError).
Proof.
  intros fs. split; [reflexivity|].
  refine (download_section_directory fs "outputs" [] _ _ [] eq_refl _ _).
  - intros r' Hr'. by apply elem_of_nil in Hr'.
  - reflexivity.
Defined.
